(** * Epiar input pipeline: a shallow embedding of Source/Input/input.cpp

    The development follows the C++ source function by function.  Raw SDL
    samples are an inductive type, the static and member variables of
    [Input] and [Lua] form one record threaded through a small state monad,
    and the calls into collaborators that are not part of the pipeline
    (video backend, interface stages, logger, script interpreter) are
    recorded in a trace so that statements about side effects can be made.
    The collaborators themselves are parameters, gathered in [Env].
*)

From Stdlib Require Import ZArith Lia Bool String Ascii.
From stdpp Require Import base tactics option list numbers strings gmap.

Local Open Scope Z_scope.

(** ** SDL 1.2 constants used by the source (SDL_keysym.h, SDL_mouse.h) *)

Module SDL.

(** [SDLKey] is an enumeration whose values lie in [0, SDLK_LAST). *)
Definition SDLKey := nat.

Definition SDLK_RETURN : SDLKey := 13%nat.
Definition SDLK_ESCAPE : SDLKey := 27%nat.
Definition SDLK_QUOTE : SDLKey := 39%nat.
Definition SDLK_COMMA : SDLKey := 44%nat.
Definition SDLK_MINUS : SDLKey := 45%nat.
Definition SDLK_PERIOD : SDLKey := 46%nat.
Definition SDLK_SLASH : SDLKey := 47%nat.
Definition SDLK_0 : SDLKey := 48%nat.
Definition SDLK_9 : SDLKey := 57%nat.
Definition SDLK_SEMICOLON : SDLKey := 59%nat.
Definition SDLK_EQUALS : SDLKey := 61%nat.
Definition SDLK_LEFTBRACKET : SDLKey := 91%nat.
Definition SDLK_BACKSLASH : SDLKey := 92%nat.
Definition SDLK_RIGHTBRACKET : SDLKey := 93%nat.
Definition SDLK_BACKQUOTE : SDLKey := 96%nat.
Definition SDLK_a : SDLKey := 97%nat.
Definition SDLK_z : SDLKey := 122%nat.
Definition SDLK_KP_ENTER : SDLKey := 271%nat.
Definition SDLK_RSHIFT : SDLKey := 303%nat.
Definition SDLK_LSHIFT : SDLKey := 304%nat.
Definition SDLK_LAST : nat := 323%nat.

Definition SDL_BUTTON_LEFT : nat := 1%nat.
Definition SDL_BUTTON_MIDDLE : nat := 2%nat.
Definition SDL_BUTTON_RIGHT : nat := 3%nat.
Definition SDL_BUTTON_WHEELUP : nat := 4%nat.
Definition SDL_BUTTON_WHEELDOWN : nat := 5%nat.

(** One entry of the queue drained by [SDL_PollEvent].  Only the payload
    that input.cpp reads is kept; [SDL_OTHER] stands for every event type
    that falls into the [default] branch of the switch in [Input::Update]. *)
Inductive SDL_Event :=
| SDL_QUIT
| SDL_KEYDOWN (sym : SDLKey)
| SDL_KEYUP (sym : SDLKey)
| SDL_MOUSEMOTION (x y : Z)
| SDL_MOUSEBUTTONUP (button : nat) (x y : Z)
| SDL_MOUSEBUTTONDOWN (button : nat) (x y : Z)
| SDL_OTHER.

End SDL.
Import SDL.

(** ** Fixed-width integers *)

Definition Uint16 (z : Z) : Z := z mod 65536.
Definition Uint32 (z : Z) : Z := z mod 4294967296.

(** Subtraction of two [Uint32] values, as C++ computes it. *)
Definition Uint32_sub (a b : Z) : Z := Uint32 (a - b).

(** ** Event model *)

(** Modelled from the spec: the enumerations [eventType], [keyState] and
    [mouseState] are declared in Input/input.h, which is not among the
    sources; their enumerators are the ones input.cpp names. *)
Inductive eventType := KEY | MOUSE.

(** Modelled from the spec: see [eventType].  The printer in input.cpp
    indexes [{'^','V','P','T'}] by the key state, which fixes the order of
    the enumerators. *)
Inductive keyState := KEYUP | KEYDOWN | KEYPRESSED | KEYTYPED.

(** Modelled from the spec: see [eventType].  [UNHANDLED] is the
    enumerator that converts to [false] in [if (state)], so it is the zero
    of the enumeration.  The order of the others only enters the ordering of
    events, for which any fixed order serves. *)
Inductive mouseState :=
| UNHANDLED
| MOUSEMOTION
| MOUSELUP | MOUSELDOWN
| MOUSEMUP | MOUSEMDOWN
| MOUSERUP | MOUSERDOWN
| MOUSEWUP | MOUSEWDOWN.

(** Modelled from the spec: the declaration of class [InputEvent] lives in
    Input/input.h, which is not among the sources.  The spec describes it as
    a tagged union: a key event carries a sub-state and a key code, a mouse
    event carries a sub-state and two coordinates.  [KeyEvent s k] stands for
    the C++ expression [InputEvent( KEY, s, k )] and [MouseEvent s x y] for
    [InputEvent( MOUSE, s, x, y )]. *)
Inductive InputEvent :=
| KeyEvent (kstate : keyState) (key : Z)
| MouseEvent (mstate : mouseState) (mx my : Z).

Definition type (e : InputEvent) : eventType :=
  match e with KeyEvent _ _ => KEY | MouseEvent _ _ _ => MOUSE end.

Definition keyState_rank (s : keyState) : Z :=
  match s with KEYUP => 0 | KEYDOWN => 1 | KEYPRESSED => 2 | KEYTYPED => 3 end.

Definition mouseState_rank (s : mouseState) : Z :=
  match s with
  | UNHANDLED => 0 | MOUSEMOTION => 1
  | MOUSELUP => 2 | MOUSELDOWN => 3
  | MOUSEMUP => 4 | MOUSEMDOWN => 5
  | MOUSERUP => 6 | MOUSERDOWN => 7
  | MOUSEWUP => 8 | MOUSEWDOWN => 9
  end.

(** Modelled from the spec: [operator==] on [InputEvent] is defined in
    Input/input.h, which is not among the sources.  The spec says that the
    identity of an event is the full tuple of its fields: kind, sub-state,
    then key code, or mouse x and y. *)
Definition InputEvent_eq (e1 e2 : InputEvent) : bool :=
  match e1, e2 with
  | KeyEvent s1 k1, KeyEvent s2 k2 =>
      (keyState_rank s1 =? keyState_rank s2) && (k1 =? k2)
  | MouseEvent s1 x1 y1, MouseEvent s2 x2 y2 =>
      (mouseState_rank s1 =? mouseState_rank s2) && (x1 =? x2) && (y1 =? y2)
  | _, _ => false
  end.

(** Modelled from the spec: [operator<] on [InputEvent] is defined in
    Input/input.h, which is not among the sources.  The spec's ordering
    policy: first compare the event kind (key before mouse), then the
    sub-state, then the remaining fields (key code; or x, then y). *)
Definition InputEvent_lt (e1 e2 : InputEvent) : bool :=
  match e1, e2 with
  | KeyEvent s1 k1, KeyEvent s2 k2 =>
      if keyState_rank s1 =? keyState_rank s2 then k1 <? k2
      else keyState_rank s1 <? keyState_rank s2
  | MouseEvent s1 x1 y1, MouseEvent s2 x2 y2 =>
      if mouseState_rank s1 =? mouseState_rank s2 then
        if x1 =? x2 then y1 <? y2 else x1 <? x2
      else mouseState_rank s1 <? mouseState_rank s2
  | KeyEvent _ _, MouseEvent _ _ _ => true
  | MouseEvent _ _ _, KeyEvent _ _ => false
  end.

Global Instance keyState_eq_dec : EqDecision keyState.
Proof. solve_decision. Defined.
Global Instance mouseState_eq_dec : EqDecision mouseState.
Proof. solve_decision. Defined.
Global Instance InputEvent_eq_dec : EqDecision InputEvent.
Proof. solve_decision. Defined.


(** ** The callback registry: [std::map<InputEvent,string>]

    A [std::map] keeps its entries ordered by the key comparison and treats
    two keys as the same when neither is less than the other.  It is
    modelled by a list of bindings kept in strictly increasing key order;
    [find], [insert] and [erase] walk the list with [InputEvent_lt] only. *)

Definition Registry := list (InputEvent * string).

Fixpoint map_find (k : InputEvent) (m : Registry) : option string :=
  match m with
  | [] => None
  | (k', v) :: m' =>
      if InputEvent_lt k' k then map_find k m'
      else if InputEvent_lt k k' then None
      else Some v
  end.

(** [insert] leaves the map alone when an equivalent key is present. *)
Fixpoint map_insert (k : InputEvent) (v : string) (m : Registry) : Registry :=
  match m with
  | [] => [(k, v)]
  | (k', v') :: m' =>
      if InputEvent_lt k' k then (k', v') :: map_insert k v m'
      else if InputEvent_lt k k' then (k, v) :: m
      else m
  end.

Fixpoint map_erase (k : InputEvent) (m : Registry) : Registry :=
  match m with
  | [] => []
  | (k', v') :: m' =>
      if InputEvent_lt k' k then (k', v') :: map_erase k m'
      else if InputEvent_lt k k' then m
      else m'
  end.

(** Representation invariant of the map: keys strictly increasing. *)
Fixpoint map_sorted (m : Registry) : bool :=
  match m with
  | [] => true
  | (k, _) :: m' =>
      match m' with
      | [] => true
      | (k', _) :: _ => InputEvent_lt k k' && map_sorted m'
      end
  end.

(** ** Observable effects *)

Inductive stage := UI | Console | Hud | LuaCallBacks.

Inductive effect :=
| Video_EnableMouse
| Video_DisableMouse
| Stage_call (s : stage) (evs : list InputEvent)
| Call_Lua_Run (line : string)
| Log_Warning (msg : string)
| Log_Error (line : string).

Global Instance stage_eq_dec : EqDecision stage.
Proof. solve_decision. Defined.
Global Instance effect_eq_dec : EqDecision effect.
Proof. solve_decision. Defined.

(** A script executed by the interpreter may call back into the pipeline
    through [Epiar.RegisterKey] and [Epiar.UnRegisterKey]; these are the
    calls of [Input::RegisterCallBack] and [Input::UnRegisterCallBack] it
    ends up making. *)
Inductive script_op :=
| Op_Register (e : InputEvent) (command : string)
| Op_UnRegister (e : InputEvent).

(** ** Collaborators

    Everything the pipeline calls but does not define.  The interface
    stages take the event list by reference and leave what they did not
    consume; they are functions from the list they receive to the list they
    leave behind. *)
Record Env := mkEnv {
  (** reading handed out by the n-th call of [Timer::GetTicks] *)
  clock : nat -> Z;
  (** value of [OPTION(Uint32,"options/timing/mouse-fade")] *)
  mouse_fade : Z;
  UI_HandleInput : list InputEvent -> list InputEvent;
  Console_HandleInput : list InputEvent -> list InputEvent;
  Hud_HandleInput : list InputEvent -> list InputEvent;
  UI_Active : bool;
  (** whether [lua_open()] returns a non-null interpreter *)
  lua_open : bool;
  (** outcome of the n-th [luaL_dostring]: [true] signals an error, the
      list holds the registry calls the script made *)
  luaL_dostring : nat -> string -> bool * list script_op
}.

(** ** Program state: the members and statics of [Input] and [Lua] *)

Record World := mkWorld {
  heldKeys : list bool;           (* bool heldKeys[SDLK_LAST] *)
  events : list InputEvent;       (* list<InputEvent> events *)
  lastMouseMove : Z;              (* static Uint32 Input::lastMouseMove *)
  eventMappings : Registry;       (* static map Input::eventMappings *)
  luaInitialized : bool;          (* static bool Lua::luaInitialized *)
  ticks_read : nat;               (* calls of Timer::GetTicks so far *)
  scripts_run : nat;              (* calls of luaL_dostring so far *)
  trace : list effect             (* effects on collaborators, oldest first *)
}.

(** [Input::Input()] zeroes the held-key table; the statics start as
    declared at the top of input.cpp and lua.cpp. *)
Definition Input_init : World :=
  {| heldKeys := replicate SDLK_LAST false; events := [];
     lastMouseMove := 0; eventMappings := [];
     luaInitialized := false; ticks_read := 0%nat; scripts_run := 0%nat;
     trace := [] |}.

Definition with_heldKeys (f : list bool -> list bool) (w : World) : World :=
  {| heldKeys := f (heldKeys w); events := events w;
     lastMouseMove := lastMouseMove w; eventMappings := eventMappings w;
     luaInitialized := luaInitialized w; ticks_read := ticks_read w;
     scripts_run := scripts_run w; trace := trace w |}.

Definition with_events (f : list InputEvent -> list InputEvent) (w : World)
  : World :=
  {| heldKeys := heldKeys w; events := f (events w);
     lastMouseMove := lastMouseMove w; eventMappings := eventMappings w;
     luaInitialized := luaInitialized w; ticks_read := ticks_read w;
     scripts_run := scripts_run w; trace := trace w |}.

Definition with_lastMouseMove (t : Z) (w : World) : World :=
  {| heldKeys := heldKeys w; events := events w;
     lastMouseMove := t; eventMappings := eventMappings w;
     luaInitialized := luaInitialized w; ticks_read := ticks_read w;
     scripts_run := scripts_run w; trace := trace w |}.

Definition with_eventMappings (f : Registry -> Registry) (w : World) : World :=
  {| heldKeys := heldKeys w; events := events w;
     lastMouseMove := lastMouseMove w; eventMappings := f (eventMappings w);
     luaInitialized := luaInitialized w; ticks_read := ticks_read w;
     scripts_run := scripts_run w; trace := trace w |}.

Definition with_luaInitialized (b : bool) (w : World) : World :=
  {| heldKeys := heldKeys w; events := events w;
     lastMouseMove := lastMouseMove w; eventMappings := eventMappings w;
     luaInitialized := b; ticks_read := ticks_read w;
     scripts_run := scripts_run w; trace := trace w |}.

Definition with_ticks_read (n : nat) (w : World) : World :=
  {| heldKeys := heldKeys w; events := events w;
     lastMouseMove := lastMouseMove w; eventMappings := eventMappings w;
     luaInitialized := luaInitialized w; ticks_read := n;
     scripts_run := scripts_run w; trace := trace w |}.

Definition with_scripts_run (n : nat) (w : World) : World :=
  {| heldKeys := heldKeys w; events := events w;
     lastMouseMove := lastMouseMove w; eventMappings := eventMappings w;
     luaInitialized := luaInitialized w; ticks_read := ticks_read w;
     scripts_run := n; trace := trace w |}.

Definition with_trace (f : list effect -> list effect) (w : World) : World :=
  {| heldKeys := heldKeys w; events := events w;
     lastMouseMove := lastMouseMove w; eventMappings := eventMappings w;
     luaInitialized := luaInitialized w; ticks_read := ticks_read w;
     scripts_run := scripts_run w; trace := f (trace w) |}.

(** ** A state monad over [World] *)

Definition M (A : Type) : Type := World -> A * World.

Definition ret {A} (a : A) : M A := fun w => (a, w).

Definition bind {A B} (m : M A) (k : A -> M B) : M B :=
  fun w => let (a, w') := m w in k a w'.

Definition gets {A} (f : World -> A) : M A := fun w => (f w, w).

Definition modify (f : World -> World) : M unit := fun w => (tt, f w).

Declare Scope io_scope.
Delimit Scope io_scope with io.
Notation "x <- m ;; k" := (bind m (fun x => k))
  (at level 100, m at next level, right associativity) : io_scope.
Notation "m ;; k" := (bind m (fun _ => k))
  (at level 100, right associativity) : io_scope.
Local Open Scope io_scope.

Definition emit (e : effect) : M unit :=
  modify (with_trace (fun t => t ++ [e])).

(** [events.push_back( e )] *)
Definition push_back (e : InputEvent) : M unit :=
  modify (with_events (fun l => l ++ [e])).

(** [heldKeys[k]] read; [heldKeys[k] = b] write. *)
Definition held (hk : list bool) (k : nat) : bool := default false (hk !! k).

Definition set_held (k : nat) (b : bool) : M unit :=
  modify (with_heldKeys (fun hk => <[k := b]> hk)).

(** [Timer::GetTicks()], a [Uint32] tick count. *)
Definition Timer_GetTicks (env : Env) : M Z :=
  n <- gets ticks_read ;;
  modify (with_ticks_read (S n)) ;;
  ret (Uint32 (clock env n)).

(** ** Mouse translation *)

(** [Input::_CheckMouseState]: the switch over the physical button. *)
Definition _CheckMouseState (button : nat) (up : bool) : mouseState :=
  if (button =? SDL_BUTTON_LEFT)%nat then
    (if up then MOUSELUP else MOUSELDOWN)
  else if (button =? SDL_BUTTON_MIDDLE)%nat then
    (if up then MOUSEMUP else MOUSEMDOWN)
  else if (button =? SDL_BUTTON_RIGHT)%nat then
    (if up then MOUSERUP else MOUSERDOWN)
  else if (button =? SDL_BUTTON_WHEELUP)%nat then
    (if up then MOUSEWUP else UNHANDLED)
  else if (button =? SDL_BUTTON_WHEELDOWN)%nat then
    (if up then MOUSEWDOWN else UNHANDLED)
  else UNHANDLED.

(** The conversion of a [mouseState] to [bool] in [if (state)]. *)
Definition mouseState_true (s : mouseState) : bool :=
  negb (mouseState_rank s =? 0).

(** [Input::_UpdateHandleMouseMotion] *)
Definition _UpdateHandleMouseMotion (env : Env) (motion_x motion_y : Z)
  : M unit :=
  let x := Uint16 motion_x in
  let y := Uint16 motion_y in
  push_back (MouseEvent MOUSEMOTION x y) ;;
  emit Video_EnableMouse ;;
  t <- Timer_GetTicks env ;;
  modify (with_lastMouseMove t).

(** [Input::_UpdateHandleMouseDown] *)
Definition _UpdateHandleMouseDown (button : nat) (button_x button_y : Z)
  : M unit :=
  let state := _CheckMouseState button false in
  let x := Uint16 button_x in
  let y := Uint16 button_y in
  if mouseState_true state then push_back (MouseEvent state x y) else ret tt.

(** [Input::_UpdateHandleMouseUp] *)
Definition _UpdateHandleMouseUp (button : nat) (button_x button_y : Z)
  : M unit :=
  let state := _CheckMouseState button true in
  let x := Uint16 button_x in
  let y := Uint16 button_y in
  if mouseState_true state then push_back (MouseEvent state x y) else ret tt.

(** ** Keyboard translation *)

(** A character literal as the [int] it converts to. *)
Definition chr (c : ascii) : Z := Z.of_nat (nat_of_ascii c).

(** The indexing [")!@#$%^&*("[i]] of the digit table. *)
Definition digit_table (i : nat) : Z :=
  match String.get i ")!@#$%^&*(" with
  | Some c => chr c
  | None => 0
  end.

(** The character computed by [Input::PushTypeEvent] for [key], given the
    held-key table: the body of the function up to its [push_back]. *)
Definition typed_letter (hk : list bool) (key : SDLKey) : Z :=
  let letter := Z.of_nat key in
  let letter :=
    if held hk SDLK_LSHIFT || held hk SDLK_RSHIFT then
      if (SDLK_a <=? key)%nat && (key <=? SDLK_z)%nat then letter - 32
      else if (SDLK_0 <=? key)%nat && (key <=? SDLK_9)%nat then
        digit_table (key - SDLK_0)
      else if (key =? SDLK_QUOTE)%nat then 34 (* the double quote *)
      else if (key =? SDLK_SEMICOLON)%nat then chr ";"
      else if (key =? SDLK_BACKQUOTE)%nat then chr "~"
      else if (key =? SDLK_MINUS)%nat then chr "_"
      else if (key =? SDLK_SLASH)%nat then chr "?"
      else if (key =? SDLK_COMMA)%nat then chr "<"
      else if (key =? SDLK_PERIOD)%nat then chr ">"
      else if (key =? SDLK_BACKSLASH)%nat then chr "|"
      else if (key =? SDLK_LEFTBRACKET)%nat then chr "{"
      else if (key =? SDLK_RIGHTBRACKET)%nat then chr "}"
      else if (key =? SDLK_EQUALS)%nat then chr "+"
      else letter
    else letter in
  if (key =? SDLK_RETURN)%nat || (key =? SDLK_KP_ENTER)%nat then 10
  else letter.

(** [Input::PushTypeEvent], called on the member list [events]. *)
Definition PushTypeEvent (key : SDLKey) : M unit :=
  hk <- gets heldKeys ;;
  push_back (KeyEvent KEYTYPED (typed_letter hk key)).

(** [Input::_UpdateHandleKeyDown]; the result is its [quitSignal]. *)
Definition _UpdateHandleKeyDown (sym : SDLKey) : M bool :=
  if (sym =? SDLK_ESCAPE)%nat then ret true
  else
    push_back (KeyEvent KEYDOWN (Z.of_nat sym)) ;;
    PushTypeEvent sym ;;
    set_held sym true ;;
    ret false.

(** [Input::_UpdateHandleKeyUp] *)
Definition _UpdateHandleKeyUp (sym : SDLKey) : M bool :=
  if (sym =? SDLK_ESCAPE)%nat then ret true
  else
    push_back (KeyEvent KEYUP (Z.of_nat sym)) ;;
    set_held sym false ;;
    ret false.

(** ** Script callbacks *)

(** [Input::RegisterCallBack] and [Input::UnRegisterCallBack] *)
Definition RegisterCallBack (event : InputEvent) (command : string) : M unit :=
  modify (with_eventMappings (map_insert event command)).

Definition UnRegisterCallBack (event : InputEvent) : M unit :=
  modify (with_eventMappings (map_erase event)).

Definition run_script_op (op : script_op) : M unit :=
  match op with
  | Op_Register e c => RegisterCallBack e c
  | Op_UnRegister e => UnRegisterCallBack e
  end.

Fixpoint run_script_ops (ops : list script_op) : M unit :=
  match ops with
  | [] => ret tt
  | op :: ops' => run_script_op op ;; run_script_ops ops'
  end.

(** [Lua::Init] *)
Definition Lua_Init (env : Env) : M bool :=
  li <- gets luaInitialized ;;
  if li then
    emit (Log_Warning "Cannot initialize Lua. It is already initialized.") ;;
    ret false
  else if negb (lua_open env) then
    emit (Log_Warning "Could not initialize Lua VM.") ;;
    ret false
  else
    modify (with_luaInitialized true) ;;
    ret true.

(** [Lua::Run].  Entering the function is recorded as [Call_Lua_Run]. *)
Definition Lua_Run (env : Env) (line : string) : M bool :=
  emit (Call_Lua_Run line) ;;
  li <- gets luaInitialized ;;
  ok <- (if negb li then Lua_Init env else ret true) ;;
  if negb ok then
    emit (Log_Warning "Could not load Lua script. Unable to initialize Lua.") ;;
    ret false
  else
    n <- gets scripts_run ;;
    modify (with_scripts_run (S n)) ;;
    run_script_ops (snd (luaL_dostring env n line)) ;;
    (if fst (luaL_dostring env n line) then emit (Log_Error line)
     else ret tt) ;;
    ret false.

(** The body of the loop in [Input::HandleLuaCallBacks] for one event. *)
Definition dispatch_event (env : Env) (i : InputEvent) : M unit :=
  m <- gets eventMappings ;;
  match map_find i m with
  | Some command => Lua_Run env command ;; ret tt
  | None => ret tt
  end.

Fixpoint dispatch_events (env : Env) (evs : list InputEvent) : M unit :=
  match evs with
  | [] => ret tt
  | i :: rest => dispatch_event env i ;; dispatch_events env rest
  end.

(** [Input::HandleLuaCallBacks], called on the member list [events]. *)
Definition HandleLuaCallBacks (env : Env) : M unit :=
  evs <- gets events ;;
  emit (Stage_call LuaCallBacks evs) ;;
  dispatch_events env evs.

(** A call [X::HandleInput( events )] of an interface stage. *)
Definition HandleInput (s : stage) (f : list InputEvent -> list InputEvent)
  : M unit :=
  evs <- gets events ;;
  emit (Stage_call s evs) ;;
  modify (with_events (fun _ => f evs)).

(** ** [Input::Update] *)

(** The [switch( event.type )] inside the polling loop: one pass of the
    loop body, from the current [quitSignal] to the next. *)
Definition handle_event (env : Env) (event : SDL_Event) (quitSignal : bool)
  : M bool :=
  match event with
  | SDL_QUIT => ret true
  | SDL_KEYDOWN sym =>
      quitSignalUpdate <- _UpdateHandleKeyDown sym ;;
      ret (if quitSignalUpdate then quitSignalUpdate else quitSignal)
  | SDL_KEYUP sym =>
      quitSignalUpdate <- _UpdateHandleKeyUp sym ;;
      ret (if quitSignalUpdate then quitSignalUpdate else quitSignal)
  | SDL_MOUSEMOTION x y =>
      _UpdateHandleMouseMotion env x y ;; ret quitSignal
  | SDL_MOUSEBUTTONUP b x y =>
      _UpdateHandleMouseUp b x y ;; ret quitSignal
  | SDL_MOUSEBUTTONDOWN b x y =>
      _UpdateHandleMouseDown b x y ;; ret quitSignal
  | SDL_OTHER => ret quitSignal
  end.

(** The [while( SDL_PollEvent( &event ) )] loop over the pending queue. *)
Fixpoint poll_loop (env : Env) (queue : list SDL_Event) (quitSignal : bool)
  : M bool :=
  match queue with
  | [] => ret quitSignal
  | event :: rest =>
      q <- handle_event env event quitSignal ;;
      poll_loop env rest q
  end.

(** The [for(int k=0;k<SDLK_LAST;k++)] loop emitting held keys, over the
    list of values [k] takes. *)
Fixpoint held_loop (ks : list nat) : M unit :=
  match ks with
  | [] => ret tt
  | k :: ks' =>
      hk <- gets heldKeys ;;
      (if held hk k then push_back (KeyEvent KEYPRESSED (Z.of_nat k))
       else ret tt) ;;
      held_loop ks'
  end.

(** First part of [Update]: translation of the queue and the held keys. *)
Definition Update_translate (env : Env) (queue : list SDL_Event) : M bool :=
  quitSignal <- poll_loop env queue false ;;
  held_loop (seq 0 SDLK_LAST) ;;
  ret quitSignal.

(** Second part: the sub-input systems, in the order of the source. *)
Definition Update_dispatch (env : Env) : M unit :=
  HandleInput UI (UI_HandleInput env) ;;
  HandleInput Console (Console_HandleInput env) ;;
  HandleInput Hud (Hud_HandleInput env) ;;
  HandleLuaCallBacks env.

(** Third part: the mouse fade test. *)
Definition Update_mouse_fade (env : Env) : M unit :=
  now <- Timer_GetTicks env ;;
  last <- gets lastMouseMove ;;
  if (Uint32_sub now last >? Uint32 (mouse_fade env)) && negb (UI_Active env)
  then emit Video_DisableMouse
  else ret tt.

Definition Update (env : Env) (queue : list SDL_Event) : M bool :=
  quitSignal <- Update_translate env queue ;;
  Update_dispatch env ;;
  Update_mouse_fade env ;;
  modify (with_events (fun _ => [])) ;;
  ret quitSignal.

(** ** Several frames

    One frame is the collaborators' behaviour during that frame together
    with the queue [SDL_PollEvent] hands out.  [run_frames] calls [Update]
    once per frame and reports, for each, the event list built by the
    translation and the value returned. *)
Definition Frame : Type := Env * list SDL_Event.

Fixpoint run_frames (fs : list Frame) (w : World)
  : list (list InputEvent * bool) :=
  match fs with
  | [] => []
  | (env, queue) :: fs' =>
      (events (snd (Update_translate env queue w)),
       fst (Update env queue w))
      :: run_frames fs' (snd (Update env queue w))
  end.

(** The effects one call of [Update] adds to the trace. *)
Definition frame_trace (env : Env) (queue : list SDL_Event) (w : World)
  : list effect :=
  drop (length (trace w)) (trace (snd (Update env queue w))).

(** ** Vocabulary of the statements *)

(** Does the raw sample set the quit signal in [Update]'s switch? *)
Definition escape_transition (e : SDL_Event) : bool :=
  match e with
  | SDL_KEYDOWN sym | SDL_KEYUP sym => (sym =? SDLK_ESCAPE)%nat
  | _ => false
  end.

Definition quit_sample (e : SDL_Event) : bool :=
  match e with
  | SDL_QUIT => true
  | _ => escape_transition e
  end.

(** Is the raw sample a down or up transition of key [k]? *)
Definition key_transition (k : SDLKey) (e : SDL_Event) : bool :=
  match e with
  | SDL_KEYDOWN sym | SDL_KEYUP sym => (sym =? k)%nat
  | _ => false
  end.

Definition key_down (k : SDLKey) (e : SDL_Event) : bool :=
  match e with
  | SDL_KEYDOWN sym => (sym =? k)%nat
  | _ => false
  end.

(** Number of occurrences of an event in an event list. *)
Definition occurrences (e : InputEvent) (l : list InputEvent) : nat :=
  count_occ InputEvent_eq_dec l e.
Global Arguments occurrences : simpl never.

Definition is_stage_call (e : effect) : bool :=
  match e with Stage_call _ _ => true | _ => false end.

Definition stage_calls (t : list effect) : list effect :=
  List.filter is_stage_call t.

(** The commands whose execution was requested in a trace. *)
Definition run_requests (t : list effect) : list string :=
  omap (fun e => match e with Call_Lua_Run l => Some l | _ => None end) t.

(** The effects recorded between two states of the world. *)
Definition added (w w' : World) : list effect :=
  drop (length (trace w)) (trace w').

(** *** The mapping the spec describes for typed characters

    Written from the spec's words, to be compared with [typed_letter]:
    with shift, a lowercase letter gives the uppercase letter, a digit gives
    the symbol above it and a punctuation key of the fixed set gives its
    shifted counterpart on the US layout; Return and keypad Enter give a
    newline; anything else passes through. *)

Definition code_points (s : string) : list nat :=
  List.map nat_of_ascii (list_ascii_of_string s).

Definition shift_pairs : list (nat * nat) :=
  List.combine (code_points "abcdefghijklmnopqrstuvwxyz")
               (code_points "ABCDEFGHIJKLMNOPQRSTUVWXYZ")
  ++ List.combine (code_points "0123456789") (code_points ")!@#$%^&*(")
  ++ List.combine (code_points "';`-/,.\[]=")
                  (34%nat :: code_points ":~_?<>|{}+").

Fixpoint lookup_pair (k : nat) (t : list (nat * nat)) : option nat :=
  match t with
  | [] => None
  | (a, b) :: t' => if (a =? k)%nat then Some b else lookup_pair k t'
  end.

Definition typed_reference (shift : bool) (key : SDLKey) : Z :=
  if (key =? SDLK_RETURN)%nat || (key =? SDLK_KP_ENTER)%nat then 10
  else if shift then
    match lookup_pair key shift_pairs with
    | Some c => Z.of_nat c
    | None => Z.of_nat key
    end
  else Z.of_nat key.

(** Effects of the translation and of the script dispatcher. *)
Definition is_video_effect (e : effect) : bool :=
  match e with Video_EnableMouse | Video_DisableMouse => true | _ => false end.

Definition is_lua_effect (e : effect) : bool :=
  match e with
  | Call_Lua_Run _ | Log_Warning _ | Log_Error _ => true
  | _ => false
  end.

(** [w'] is [w] with [d] appended to the trace and nothing before it
    changed. *)
Definition appends (w w' : World) (d : list effect) : Prop :=
  trace w' = trace w ++ d.

(** What one call of [Lua::Run] adds to the trace: the request itself,
    then either the two warnings of a failed initialisation or the error of
    a failed script. *)
Definition Lua_Run_effects (env : Env) (w : World) (line : string)
  : list effect :=
  Call_Lua_Run line ::
  (if negb (luaInitialized w) && negb (lua_open env) then
     [Log_Warning "Could not initialize Lua VM.";
      Log_Warning "Could not load Lua script. Unable to initialize Lua."]
   else if fst (luaL_dostring env (scripts_run w) line) then [Log_Error line]
   else []).

(** The events one raw sample appends to the list, and the held-key table
    it leaves, read off the handlers; used to reason about whole queues. *)
Definition sample_events (hk : list bool) (e : SDL_Event) : list InputEvent :=
  match e with
  | SDL_KEYDOWN sym =>
      if (sym =? SDLK_ESCAPE)%nat then []
      else [KeyEvent KEYDOWN (Z.of_nat sym);
            KeyEvent KEYTYPED (typed_letter hk sym)]
  | SDL_KEYUP sym =>
      if (sym =? SDLK_ESCAPE)%nat then []
      else [KeyEvent KEYUP (Z.of_nat sym)]
  | SDL_MOUSEMOTION x y => [MouseEvent MOUSEMOTION (Uint16 x) (Uint16 y)]
  | SDL_MOUSEBUTTONUP b x y =>
      if mouseState_true (_CheckMouseState b true)
      then [MouseEvent (_CheckMouseState b true) (Uint16 x) (Uint16 y)]
      else []
  | SDL_MOUSEBUTTONDOWN b x y =>
      if mouseState_true (_CheckMouseState b false)
      then [MouseEvent (_CheckMouseState b false) (Uint16 x) (Uint16 y)]
      else []
  | _ => []
  end.

Definition sample_held (hk : list bool) (e : SDL_Event) : list bool :=
  match e with
  | SDL_KEYDOWN sym =>
      if (sym =? SDLK_ESCAPE)%nat then hk else <[sym := true]> hk
  | SDL_KEYUP sym =>
      if (sym =? SDLK_ESCAPE)%nat then hk else <[sym := false]> hk
  | _ => hk
  end.

Fixpoint queue_events (hk : list bool) (q : list SDL_Event)
  : list InputEvent :=
  match q with
  | [] => []
  | e :: q' => sample_events hk e ++ queue_events (sample_held hk e) q'
  end.

Definition queue_held (hk : list bool) (q : list SDL_Event) : list bool :=
  fold_left sample_held q hk.

(** The [Held] events the scan over the table appends. *)
Definition held_events (hk : list bool) (ks : list nat) : list InputEvent :=
  List.map (fun k => KeyEvent KEYPRESSED (Z.of_nat k))
           (List.filter (held hk) ks).

(** No down or up transition of key [k] in the queue; no down transition
    of [k] in the queue. *)
Definition quiet (k : SDLKey) (q : list SDL_Event) : bool :=
  forallb (fun e => negb (key_transition k e)) q.

Definition no_down (k : SDLKey) (q : list SDL_Event) : bool :=
  forallb (fun e => negb (key_down k e)) q.

(** The test guarding [Video::DisableMouse()] in [Update], on the state
    [w] in which it is evaluated. *)
Definition fade_test (env : Env) (w : World) : bool :=
  (Uint32_sub (Uint32 (clock env (ticks_read w))) (lastMouseMove w)
     >? Uint32 (mouse_fade env))
  && negb (UI_Active env).

(** *** Concrete collaborators and states, to exercise the statements *)

(** Stages that consume nothing, a clock advancing 100 ticks per reading, a
    fade threshold of 500 ticks, a working interpreter whose scripts succeed
    and leave the registry alone. *)
Definition idle_env : Env :=
  {| clock := fun n => Z.of_nat n * 100;
     mouse_fade := 500;
     UI_HandleInput := fun l => l;
     Console_HandleInput := fun l => l;
     Hud_HandleInput := fun l => l;
     UI_Active := false;
     lua_open := true;
     luaL_dostring := fun _ _ => (false, []) |}.

(** The same, with an interface layer that consumes every key event and
    an interpreter in which every script fails. *)
Definition greedy_env : Env :=
  {| clock := fun n => Z.of_nat n * 100;
     mouse_fade := 500;
     UI_HandleInput :=
       List.filter (fun e => match e with KeyEvent _ _ => false | _ => true end);
     Console_HandleInput := fun l => l;
     Hud_HandleInput := fun l => l;
     UI_Active := false;
     lua_open := true;
     luaL_dostring := fun _ _ => (true, []) |}.

Definition key_a : SDLKey := 97%nat.

(** The initial state after [RegisterCallBack( KEY a DOWN, fire() )]. *)
Definition bound_world : World :=
  snd (RegisterCallBack (KeyEvent KEYDOWN (Z.of_nat key_a)) "fire()"
         Input_init).

(** Is a shift key held, as [PushTypeEvent] tests it? *)
Definition shift_held (hk : list bool) : bool :=
  held hk SDLK_LSHIFT || held hk SDLK_RSHIFT.

(** The table with a shift key down, the rest up. *)
Definition shifted_table : list bool :=
  <[SDLK_LSHIFT := true]> (replicate SDLK_LAST false).

(** ** Further code of lua.cpp and input.cpp *)

(** [Lua::Close].  The interpreter itself is not part of the state: as
    for [lua_open], only what the call does to the statics and the log is
    kept, and [lua_close( L )] touches neither. *)
Definition Lua_Close : M bool :=
  li <- gets luaInitialized ;;
  if li then ret true
  else
    emit (Log_Warning
            "Cannot deinitialize Lua. It is either not initialized or a script is still loaded.") ;;
    ret false.

(** *** The script-facing calls [Input::RegisterKey], [Input::UnRegisterKey]

    A value on the Lua stack, through the three functions of the Lua
    library these calls apply to it: [lua_isnumber], [luaL_checkint] and
    [luaL_checkstring]; [None] stands for the error a check raises. *)
Record lua_value := mk_lua_value {
  lua_isnumber : bool;
  luaL_checkint : option Z;
  luaL_checkstring : option string
}.

(** How a function called from Lua ends: it returns its number of results,
    raises [luaL_error] with a message built from the number of arguments
    it got, a check of argument [narg] raises, or an [assert] fails. *)
Inductive lua_call_result :=
| Lua_returned (nresults : nat)
| Lua_error (got : nat) (expected : string)
| Lua_argument_error (narg : nat)
| Assertion_failed.

(** [(int)(s[0])] for a string from Lua: the terminator of the empty
    string is 0; plain [char] is signed or not with the platform. *)
Definition first_char (char_signed : bool) (s : string) : Z :=
  match s with
  | EmptyString => 0
  | String c _ =>
      if char_signed && (128 <=? chr c) then chr c - 256 else chr c
  end.

(** The cast [(keyState)(i)] for the values that are enumerators. *)
Definition keyState_of_int (i : Z) : option keyState :=
  if i =? 0 then Some KEYUP
  else if i =? 1 then Some KEYDOWN
  else if i =? 2 then Some KEYPRESSED
  else if i =? 3 then Some KEYTYPED
  else None.

(** The first argument of both calls: a number is the key code, anything
    else must be a string whose first character is the key code. *)
Definition triggerKey_of (char_signed : bool) (a : lua_value) : option Z :=
  if lua_isnumber a then luaL_checkint a
  else option_map (first_char char_signed) (luaL_checkstring a).

(** [Input::RegisterKey], on the arguments the script passed.  The result
    is [None] where the call leaves the event model: when the state
    argument is an integer that is no enumerator of [keyState], the source
    registers an event no list built by the pipeline can hold. *)
Definition RegisterKey (char_signed : bool) (args : list lua_value)
  : M (option lua_call_result) :=
  let n := length args in
  match args with
  | [a1; a2; a3] =>
      match triggerKey_of char_signed a1 with
      | None => ret (Some (Lua_argument_error 1))
      | Some triggerKey =>
          match luaL_checkint a2 with
          | None => ret (Some (Lua_argument_error 2))
          | Some i =>
              match luaL_checkstring a3 with
              | None => ret (Some (Lua_argument_error 3))
              | Some command =>
                  match keyState_of_int i with
                  | Some triggerState =>
                      RegisterCallBack (KeyEvent triggerState triggerKey)
                        command ;;
                      ret (Some (Lua_returned 0))
                  | None => ret None
                  end
              end
          end
      end
  | _ => ret (Some (Lua_error n "3 (Key, State, Command)"))
  end.

(** [Input::UnRegisterKey] *)
Definition UnRegisterKey (char_signed : bool) (args : list lua_value)
  : M (option lua_call_result) :=
  let n := length args in
  match args with
  | [a1; a2] =>
      match triggerKey_of char_signed a1 with
      | None => ret (Some (Lua_argument_error 1))
      | Some triggerKey =>
          match luaL_checkint a2 with
          | None => ret (Some (Lua_argument_error 2))
          | Some i =>
              match keyState_of_int i with
              | Some triggerState =>
                  UnRegisterCallBack (KeyEvent triggerState triggerKey) ;;
                  ret (Some (Lua_returned 0))
              | None => ret None
              end
          end
      end
  | _ => ret (Some (Lua_error n "2 (Key, State)"))
  end.

(** *** Sprites handed to Lua: [Lua::pushSprite], [Lua::getNearestSprite] *)

(** The draw orders of Sprites/sprite.h. *)
Definition DRAW_ORDER_PLANET : Z := 0.
Definition DRAW_ORDER_WEAPON : Z := 1.
Definition DRAW_ORDER_SHIP : Z := 2.
Definition DRAW_ORDER_PLAYER : Z := 3.
Definition DRAW_ORDER_EFFECT : Z := 4.

Inductive metatable := EPIAR_SHIP | EPIAR_PLANET.

(** The userdata [pushSprite] leaves on the Lua stack: the sprite's id and
    the metatable attached to it, if any. *)
Record userdata := mk_userdata {
  ud_id : Z;
  ud_metatable : option metatable
}.

(** What [pushSprite] does: the [assert] fails (when asserts are compiled
    in), or the userdata is pushed, with an error logged in the [default]
    branch of the switch. *)
Inductive push_result :=
| Push_assertion_failed
| Pushed (u : userdata) (error_logged : bool).

(** [Lua::pushSprite] for a sprite with the given [GetID()] and
    [GetDrawOrder()]; [NDEBUG] tells whether asserts are compiled out. *)
Definition pushSprite (NDEBUG : bool) (id drawOrder : Z) : push_result :=
  if negb NDEBUG
     && (Z.land drawOrder
           (Z.lor (Z.lor DRAW_ORDER_SHIP DRAW_ORDER_PLAYER) DRAW_ORDER_PLANET)
         =? 0)
  then Push_assertion_failed
  else if (drawOrder =? DRAW_ORDER_SHIP) || (drawOrder =? DRAW_ORDER_PLAYER)
  then Pushed (mk_userdata id (Some EPIAR_SHIP)) false
  else if drawOrder =? DRAW_ORDER_PLANET
  then Pushed (mk_userdata id (Some EPIAR_PLANET)) false
  else Pushed (mk_userdata id None) true.

(** What [getNearestSprite] leaves: how the call ends, and the userdata it
    pushed, if any. *)
Definition nearest_result : Type := lua_call_result * option push_result.

(** [Lua::getNearestSprite].  [nargs] is [lua_gettop], [ship] tells whether
    [AI_Lua::checkShip] found the ship of argument 1, [range] whether
    argument 2 is a number, and [closest] is what
    [SpriteManager::GetNearestSprite] returns for it: nothing, or a sprite
    given by its id and draw order. *)
Definition getNearestSprite (NDEBUG : bool) (type : Z) (nargs : nat)
  (ship range : bool) (closest : option (Z * Z)) : nearest_result :=
  if negb (nargs =? 2)%nat then (Lua_error nargs "1 (ship, range)", None)
  else if negb ship then (Lua_returned 0, None)
  else if negb range then (Lua_argument_error 2, None)
  else
    match closest with
    | Some (id, drawOrder) =>
        if negb NDEBUG && (Z.land drawOrder type =? 0)
        then (Assertion_failed, None)
        else
          match pushSprite NDEBUG id drawOrder with
          | Push_assertion_failed => (Assertion_failed, None)
          | Pushed u e => (Lua_returned 1, Some (Pushed u e))
          end
    | None => (Lua_returned 0, None)
    end.

(** [Lua::getNearestShip] and [Lua::getNearestPlanet] *)
Definition getNearestShip (NDEBUG : bool) :=
  getNearestSprite NDEBUG (Z.lor DRAW_ORDER_SHIP DRAW_ORDER_PLAYER).

Definition getNearestPlanet (NDEBUG : bool) :=
  getNearestSprite NDEBUG DRAW_ORDER_PLANET.

(** *** Tables of names: [Lua::pushNames]

    The part of the Lua stack these functions use: strings and tables of
    strings indexed by integers.  Index 1 is the bottom of the stack. *)
Inductive lua_object :=
| LString (s : string)
| LTable (t : gmap Z string).

Definition lua_stack := list lua_object.

(** [lua_createtable( L, narr, 0 )], [lua_gettop( L )],
    [lua_pushstring( L, s )] *)
Definition lua_createtable (st : lua_stack) : lua_stack := st ++ [LTable ∅].

Definition lua_gettop (st : lua_stack) : nat := length st.

Definition lua_pushstring (s : string) (st : lua_stack) : lua_stack :=
  st ++ [LString s].

(** [lua_rawseti( L, idx, n )]: [t[n] = v] for the table [t] at index [idx]
    and the value [v] on top, which is popped.  [None] when the stack does
    not have that shape. *)
Definition lua_rawseti (idx : nat) (n : Z) (st : lua_stack)
  : option lua_stack :=
  match last st, removelast st !! pred idx with
  | Some (LString v), Some (LTable t) =>
      Some (<[pred idx := LTable (<[n := v]> t)]> (removelast st))
  | _, _ => None
  end.

(** The [while] loop of [pushNames], from the current [index]. *)
Fixpoint pushNames_loop (newTable : nat) (names : list string) (index : Z)
  (st : lua_stack) : option lua_stack :=
  match names with
  | [] => Some st
  | name :: rest =>
      match lua_rawseti newTable index (lua_pushstring name st) with
      | Some st' => pushNames_loop newTable rest (index + 1) st'
      | None => None
      end
  end.

(** [Lua::pushNames] *)
Definition pushNames (names : list string) (st : lua_stack)
  : option lua_stack :=
  let st := lua_createtable st in
  let newTable := lua_gettop st in
  pushNames_loop newTable names 1 st.

(** *** Technologies: Engine/technologies.cpp *)

Module Tech.

(** The catalogs a technology refers to.  Models, engines and weapons are
    objects of catalogs that are not part of this file; a technology holds
    pointers to them.  [GetModel] and its like return a null pointer,
    [None], for a name the catalog does not have.  The macro [PPA_MATCHES]
    is defined in Utilities/parser.h, which is not among the sources: the
    test it makes of [subName] against a literal is a parameter. *)
Record Catalog := mk_Catalog {
  Model : Type;
  Engine : Type;
  Weapon : Type;
  Model_GetName : Model -> string;
  Engine_GetName : Engine -> string;
  Weapon_GetName : Weapon -> string;
  Models_GetModel : string -> option Model;
  Engines_GetEngine : string -> option Engine;
  Weapons_GetWeapon : string -> option Weapon;
  PPA_MATCHES : string -> string -> bool
}.

Record Technology (C : Catalog) := mk_Technology {
  name : string;
  models : list (Model C);
  engines : list (Engine C);
  weapons : list (Weapon C)
}.
Global Arguments mk_Technology {C}.
Global Arguments name {C}.
Global Arguments models {C}.
Global Arguments engines {C}.
Global Arguments weapons {C}.

(** [Technology::Technology()] *)
Definition empty {C : Catalog} : Technology C := mk_Technology "" [] [] [].

(** [Technology::parserCB].  The result is the value returned, the
    technology after the call and the values for which an error was
    logged. *)
Definition parserCB {C : Catalog} (t : Technology C)
  (sectionName subName value : string) : bool * Technology C * list string :=
  if PPA_MATCHES C subName "name" then
    (true, mk_Technology value (models t) (engines t) (weapons t), [])
  else if PPA_MATCHES C subName "model" then
    match Models_GetModel C value with
    | None => (true, t, [value])
    | Some model =>
        (true,
         mk_Technology (name t) (models t ++ [model]) (engines t) (weapons t),
         [])
    end
  else if PPA_MATCHES C subName "engine" then
    match Engines_GetEngine C value with
    | None => (true, t, [value])
    | Some engine =>
        (true,
         mk_Technology (name t) (models t) (engines t ++ [engine]) (weapons t),
         [])
    end
  else if PPA_MATCHES C subName "weapon" then
    match Weapons_GetWeapon C value with
    | None => (true, t, [value])
    | Some weapon =>
        (true,
         mk_Technology (name t) (models t) (engines t) (weapons t ++ [weapon]),
         [])
    end
  else (true, t, []).

(** An XML element as [ToXMLNode] builds it: its name and its children,
    each a name with its text, in the order [xmlNewChild] added them. *)
Record xmlNode := mk_xmlNode {
  xml_name : string;
  xml_children : list (string * string)
}.

(** [Technology::ToXMLNode] *)
Definition ToXMLNode {C : Catalog} (t : Technology C) (componentName : string)
  : xmlNode :=
  mk_xmlNode componentName
    (("name", name t)
     :: List.map (fun m => ("model", Model_GetName C m)) (models t)
     ++ List.map (fun w => ("weapon", Weapon_GetName C w)) (weapons t)
     ++ List.map (fun e => ("engine", Engine_GetName C e)) (engines t)).

(** Feeding the children of an element to [parserCB] in document order:
    whether every call returned [true], the technology at the end and the
    values logged on the way. *)
Fixpoint parse_children {C : Catalog} (sectionName : string)
  (children : list (string * string)) (t : Technology C)
  : bool * Technology C * list string :=
  match children with
  | [] => (true, t, [])
  | (subName, value) :: rest =>
      let '(ok1, t1, log1) := parserCB t sectionName subName value in
      let '(ok2, t2, log2) := parse_children sectionName rest t1 in
      (ok1 && ok2, t2, log1 ++ log2)
  end.

(** A catalog of three ships, one engine and no weapon, keyed by name. *)
Definition sample_catalog : Catalog :=
  {| Model := string; Engine := string; Weapon := string;
     Model_GetName := fun m => m;
     Engine_GetName := fun e => e;
     Weapon_GetName := fun w => w;
     Models_GetModel :=
       fun s => if bool_decide (s ∈ ["Terran"; "Vulcan"; "Uber"]) then Some s
                else None;
     Engines_GetEngine :=
       fun s => if bool_decide (s = "Ion") then Some s else None;
     Weapons_GetWeapon := fun _ => None;
     PPA_MATCHES := String.eqb |}.

Definition sample_technology : Technology sample_catalog :=
  @mk_Technology sample_catalog "Fleet"
    (["Vulcan"; "Terran"] : list string) (["Ion"] : list string)
    ([] : list string).

End Tech.

(** ** Vocabulary of the further properties *)

(** The state a run of frames leaves. *)
Fixpoint frames_world (fs : list Frame) (w : World) : World :=
  match fs with
  | [] => w
  | (env, queue) :: fs' => frames_world fs' (snd (Update env queue w))
  end.

(** What holds of the state between two frames: the table has its declared
    size, the event list is empty, the registry is in key order. *)
Definition well_formed (w : World) : Prop :=
  length (heldKeys w) = SDLK_LAST /\ events w = [] /\
  map_sorted (eventMappings w) = true.

Definition is_key_sample (e : SDL_Event) : bool :=
  match e with
  | SDL_KEYDOWN _ | SDL_KEYUP _ => true
  | _ => false
  end.

Definition is_motion (e : SDL_Event) : bool :=
  match e with
  | SDL_MOUSEMOTION _ _ => true
  | _ => false
  end.

(** Key-down and key-up samples of keys other than escape. *)
Definition is_plain_down (e : SDL_Event) : bool :=
  match e with
  | SDL_KEYDOWN sym => negb (sym =? SDLK_ESCAPE)%nat
  | _ => false
  end.

Definition is_plain_up (e : SDL_Event) : bool :=
  match e with
  | SDL_KEYUP sym => negb (sym =? SDLK_ESCAPE)%nat
  | _ => false
  end.

(** Is the event a key event in sub-state [s]? *)
Definition has_state (s : keyState) (e : InputEvent) : bool :=
  match e with
  | KeyEvent s' _ => bool_decide (s' = s)
  | MouseEvent _ _ _ => false
  end.

(** Number of calls of [Video::EnableMouse] in a trace. *)
Definition count_enable (t : list effect) : nat :=
  count_occ effect_eq_dec t Video_EnableMouse.

(** The table the loop of [pushNames] builds from the table [t], writing
    the names at the indices from [index] on. *)
Fixpoint names_table (index : Z) (names : list string) (t : gmap Z string)
  : gmap Z string :=
  match names with
  | [] => t
  | name :: rest => names_table (index + 1) rest (<[index := name]> t)
  end.

(** * Properties *)

Lemma keyState_rank_inj s1 s2 : keyState_rank s1 = keyState_rank s2 -> s1 = s2.
Proof. destruct s1, s2; simpl; intros H; try reflexivity; discriminate H. Qed.

Lemma mouseState_rank_inj s1 s2 :
  mouseState_rank s1 = mouseState_rank s2 -> s1 = s2.
Proof. destruct s1, s2; simpl; intros H; try reflexivity; discriminate H. Qed.

Lemma InputEvent_eq_spec e1 e2 : InputEvent_eq e1 e2 = true <-> e1 = e2.
Proof.
  split.
  - destruct e1 as [s1 k1|s1 x1 y1], e2 as [s2 k2|s2 x2 y2]; simpl;
      try discriminate; rewrite ?andb_true_iff, ?Z.eqb_eq.
    + intros [Hs Hk]. apply keyState_rank_inj in Hs. congruence.
    + intros [[Hs Hx] Hy]. apply mouseState_rank_inj in Hs. congruence.
  - intros <-. destruct e1; simpl; rewrite ?Z.eqb_refl; reflexivity.
Qed.

Lemma InputEvent_lt_irrefl e : InputEvent_lt e e = false.
Proof. destruct e; simpl; rewrite ?Z.eqb_refl; apply Z.ltb_irrefl. Qed.

Ltac order_cases :=
  repeat match goal with
    | |- context [ (?a =? ?b) ] => destruct (Z.eqb_spec a b)
    | H : context [ (?a =? ?b) ] |- _ => destruct (Z.eqb_spec a b)
    | |- context [ (?a <? ?b) ] => destruct (Z.ltb_spec a b)
    | H : context [ (?a <? ?b) ] |- _ => destruct (Z.ltb_spec a b)
    end.

Lemma InputEvent_lt_trans e1 e2 e3 :
  InputEvent_lt e1 e2 = true -> InputEvent_lt e2 e3 = true ->
  InputEvent_lt e1 e3 = true.
Proof.
  destruct e1 as [s1 k1|s1 x1 y1], e2 as [s2 k2|s2 x2 y2],
    e3 as [s3 k3|s3 x3 y3]; simpl; try (intros; (reflexivity || discriminate)).
  - generalize (keyState_rank s1), (keyState_rank s2), (keyState_rank s3).
    intros a b c. order_cases; intros; try (reflexivity || discriminate); lia.
  - generalize (mouseState_rank s1), (mouseState_rank s2), (mouseState_rank s3).
    intros a b c. order_cases; intros; try (reflexivity || discriminate); lia.
Qed.

Lemma InputEvent_lt_total e1 e2 :
  InputEvent_lt e1 e2 = false -> InputEvent_lt e2 e1 = false -> e1 = e2.
Proof.
  destruct e1 as [s1 k1|s1 x1 y1], e2 as [s2 k2|s2 x2 y2]; simpl;
    try discriminate.
  - pose proof (keyState_rank_inj s1 s2) as Hinj. revert Hinj.
    generalize (keyState_rank s1), (keyState_rank s2). intros a b Hinj.
    order_cases; intros; try discriminate; try lia.
    f_equal; [apply Hinj; lia | lia].
  - pose proof (mouseState_rank_inj s1 s2) as Hinj. revert Hinj.
    generalize (mouseState_rank s1), (mouseState_rank s2). intros a b Hinj.
    order_cases; intros; try discriminate; try lia.
    f_equal; [apply Hinj; lia | lia | lia].
Qed.

Lemma InputEvent_lt_asym e1 e2 :
  InputEvent_lt e1 e2 = true -> InputEvent_lt e2 e1 = false.
Proof.
  intros H. destruct (InputEvent_lt e2 e1) eqn:H'; [|reflexivity].
  pose proof (InputEvent_lt_trans _ _ _ H H') as Ht.
  rewrite InputEvent_lt_irrefl in Ht. discriminate.
Qed.

(** ** The registry as an ordered map *)

Lemma map_sorted_tail k v m : map_sorted ((k, v) :: m) = true -> map_sorted m = true.
Proof.
  simpl. destruct m as [|[k' v'] m']; [reflexivity|].
  rewrite andb_true_iff. tauto.
Qed.

(** In a sorted map every key behind the head is greater than the head. *)
Lemma map_sorted_head_lt k v m k' v' :
  map_sorted ((k, v) :: m) = true -> In (k', v') m -> InputEvent_lt k k' = true.
Proof.
  revert k v. induction m as [|[k1 v1] m IH]; intros k v Hs Hin; [destruct Hin|].
  pose proof (map_sorted_tail _ _ _ Hs) as Hs'.
  simpl in Hs. apply andb_true_iff in Hs as [Hlt _].
  destruct Hin as [Heq|Hin].
  - congruence.
  - eapply InputEvent_lt_trans; [exact Hlt|]. exact (IH k1 v1 Hs' Hin).
Qed.

Lemma map_find_In k v m :
  map_sorted m = true -> (map_find k m = Some v <-> In (k, v) m).
Proof.
  induction m as [|[k1 v1] m IH]; intros Hs; simpl.
  - split; [discriminate | tauto].
  - pose proof (map_sorted_tail _ _ _ Hs) as Hs'.
    destruct (InputEvent_lt k1 k) eqn:H1.
    + rewrite (IH Hs'). split; [tauto|]. intros [Heq|Hin]; [|exact Hin].
      inversion Heq; subst. rewrite InputEvent_lt_irrefl in H1. discriminate.
    + destruct (InputEvent_lt k k1) eqn:H2.
      * split; [discriminate|]. intros [Heq|Hin].
        -- inversion Heq; subst. rewrite InputEvent_lt_irrefl in H2. discriminate.
        -- pose proof (map_sorted_head_lt _ _ _ _ _ Hs Hin) as H3. congruence.
      * pose proof (InputEvent_lt_total _ _ H1 H2) as ->.
        split.
        -- intros [= ->]. now left.
        -- intros [Heq|Hin]; [congruence|].
           pose proof (map_sorted_head_lt _ _ _ _ _ Hs Hin) as H3.
           rewrite InputEvent_lt_irrefl in H3. discriminate.
Qed.

Lemma map_insert_present k v v' m :
  map_find k m = Some v -> map_insert k v' m = m.
Proof.
  induction m as [|[k1 v1] m IH]; simpl; [discriminate|].
  destruct (InputEvent_lt k1 k); [intros H; now rewrite IH|].
  destruct (InputEvent_lt k k1); [discriminate | reflexivity].
Qed.

Lemma map_insert_sorted k v m :
  map_sorted m = true -> map_sorted (map_insert k v m) = true.
Proof.
  induction m as [|[k1 v1] m IH]; intros Hs; [reflexivity|].
  pose proof (map_sorted_tail _ _ _ Hs) as Hs'. specialize (IH Hs').
  simpl. destruct (InputEvent_lt k1 k) eqn:H1.
  - destruct m as [|[k2 v2] m]; simpl in *.
    + now rewrite H1.
    + apply andb_true_iff in Hs as [H12 _].
      destruct (InputEvent_lt k2 k) eqn:H2.
      * simpl in IH. now rewrite H12.
      * destruct (InputEvent_lt k k2) eqn:H3.
        -- now rewrite H1.
        -- now rewrite H12.
  - destruct (InputEvent_lt k k1) eqn:H2; [|exact Hs].
    change (InputEvent_lt k k1 && map_sorted ((k1, v1) :: m) = true).
    now rewrite H2.
Qed.

Lemma map_erase_sorted k m :
  map_sorted m = true -> map_sorted (map_erase k m) = true.
Proof.
  induction m as [|[k1 v1] m IH]; intros Hs; [reflexivity|].
  pose proof (map_sorted_tail _ _ _ Hs) as Hs'. specialize (IH Hs').
  simpl. destruct (InputEvent_lt k1 k) eqn:H1.
  - destruct m as [|[k2 v2] m]; [reflexivity|].
    simpl in Hs. apply andb_true_iff in Hs as [H12 Hs2].
    simpl in *. destruct (InputEvent_lt k2 k) eqn:H2.
    + now rewrite H12.
    + destruct (InputEvent_lt k k2) eqn:H3.
      * now rewrite H12.
      * destruct m as [|[k3 v3] m]; [reflexivity|].
        apply andb_true_iff in Hs2 as [H23 Hs3].
        rewrite (InputEvent_lt_trans _ _ _ H12 H23). exact Hs3.
  - destruct (InputEvent_lt k k1); [exact Hs | exact Hs'].
Qed.

Lemma map_erase_In k m k' v' :
  In (k', v') (map_erase k m) -> In (k', v') m.
Proof.
  induction m as [|[k1 v1] m IH]; simpl; [tauto|].
  destruct (InputEvent_lt k1 k).
  - intros [H|H]; [now left | right; auto].
  - destruct (InputEvent_lt k k1); [tauto | now right].
Qed.

Lemma map_erase_absent k m v :
  map_sorted m = true -> ~ In (k, v) (map_erase k m).
Proof.
  induction m as [|[k1 v1] m IH]; intros Hs; simpl; [tauto|].
  pose proof (map_sorted_tail _ _ _ Hs) as Hs'.
  destruct (InputEvent_lt k1 k) eqn:H1.
  - intros [Heq|Hin]; [|exact (IH Hs' Hin)].
    inversion Heq; subst. rewrite InputEvent_lt_irrefl in H1. discriminate.
  - destruct (InputEvent_lt k k1) eqn:H2.
    + intros [Heq|Hin].
      * inversion Heq; subst. rewrite InputEvent_lt_irrefl in H2. discriminate.
      * pose proof (map_sorted_head_lt _ _ _ _ _ Hs Hin) as H3. congruence.
    + pose proof (InputEvent_lt_total _ _ H1 H2) as ->. intros Hin.
      pose proof (map_sorted_head_lt _ _ _ _ _ Hs Hin) as H3.
      rewrite InputEvent_lt_irrefl in H3. discriminate.
Qed.

Lemma map_find_erase k m :
  map_sorted m = true -> map_find k (map_erase k m) = None.
Proof.
  intros Hs. destruct (map_find k (map_erase k m)) as [v|] eqn:Hf; [|reflexivity].
  apply map_find_In in Hf; [|now apply map_erase_sorted].
  now apply map_erase_absent in Hf.
Qed.

(** ** Traces *)

Lemma added_appends w w' d : appends w w' d -> added w w' = d.
Proof. unfold appends, added. intros ->. apply drop_app_length. Qed.

Lemma appends_refl w : appends w w [].
Proof. unfold appends. now rewrite app_nil_r. Qed.

Lemma appends_trans w1 w2 w3 d1 d2 :
  appends w1 w2 d1 -> appends w2 w3 d2 -> appends w1 w3 (d1 ++ d2).
Proof. unfold appends. intros H1 H2. now rewrite H2, H1, app_assoc. Qed.

Lemma stage_calls_app t1 t2 :
  stage_calls (t1 ++ t2) = stage_calls t1 ++ stage_calls t2.
Proof. apply List.filter_app. Qed.

Lemma stage_calls_video d :
  forallb is_video_effect d = true -> stage_calls d = [].
Proof.
  induction d as [|e d IH]; [reflexivity|]. simpl.
  rewrite andb_true_iff. intros [He Hd]. destruct e; try discriminate; auto.
Qed.

Lemma stage_calls_lua d :
  forallb is_lua_effect d = true -> stage_calls d = [].
Proof.
  induction d as [|e d IH]; [reflexivity|]. simpl.
  rewrite andb_true_iff. intros [He Hd]. destruct e; try discriminate; auto.
Qed.

Lemma run_requests_app t1 t2 :
  run_requests (t1 ++ t2) = run_requests t1 ++ run_requests t2.
Proof. apply omap_app. Qed.

Lemma run_requests_video d :
  forallb is_video_effect d = true -> run_requests d = [].
Proof.
  induction d as [|e d IH]; [reflexivity|]. simpl.
  rewrite andb_true_iff. intros [He Hd].
  destruct e; try discriminate; simpl; auto.
Qed.

Ltac run :=
  unfold _UpdateHandleKeyDown, _UpdateHandleKeyUp, _UpdateHandleMouseMotion,
    _UpdateHandleMouseDown, _UpdateHandleMouseUp, PushTypeEvent,
    RegisterCallBack, UnRegisterCallBack, HandleInput, Timer_GetTicks,
    set_held, push_back, emit, modify, gets, bind, ret in *;
  simpl in *.

(** Case analysis on the condition of a conditional applied to the state. *)
Ltac split_if :=
  match goal with
  | |- context [(if ?c then _ else _) _] => destruct c eqn:?; simpl
  end.

(** ** Scripts and the registry *)

Lemma run_script_ops_frame ops w :
  let w' := snd (run_script_ops ops w) in
  heldKeys w' = heldKeys w /\ events w' = events w /\
  lastMouseMove w' = lastMouseMove w /\ luaInitialized w' = luaInitialized w /\
  ticks_read w' = ticks_read w /\ scripts_run w' = scripts_run w /\
  trace w' = trace w /\
  (map_sorted (eventMappings w) = true -> map_sorted (eventMappings w') = true).
Proof.
  revert w. induction ops as [|op ops IH]; intros w; simpl.
  - repeat split; auto.
  - unfold bind. destruct (run_script_op op w) as [[] w1] eqn:H1.
    specialize (IH w1). simpl in IH.
    assert (heldKeys w1 = heldKeys w /\ events w1 = events w /\
            lastMouseMove w1 = lastMouseMove w /\
            luaInitialized w1 = luaInitialized w /\
            ticks_read w1 = ticks_read w /\ scripts_run w1 = scripts_run w /\
            trace w1 = trace w /\
            (map_sorted (eventMappings w) = true ->
             map_sorted (eventMappings w1) = true)) as Hop.
    { destruct op; run; inversion H1; subst; simpl; repeat split; auto.
      - apply map_insert_sorted.
      - apply map_erase_sorted. }
    destruct IH as (?&?&?&?&?&?&?&?). destruct Hop as (?&?&?&?&?&?&?&?).
    repeat split; try congruence. auto.
Qed.

Lemma Lua_Run_frame env line w :
  let w' := snd (Lua_Run env line w) in
  heldKeys w' = heldKeys w /\ events w' = events w /\
  lastMouseMove w' = lastMouseMove w /\ ticks_read w' = ticks_read w /\
  appends w w' (Lua_Run_effects env w line) /\
  (map_sorted (eventMappings w) = true -> map_sorted (eventMappings w') = true).
Proof.
  unfold Lua_Run, Lua_Init, Lua_Run_effects, appends.
  destruct (luaInitialized w) eqn:Hli; destruct (lua_open env) eqn:Hlo; run;
    repeat (progress (rewrite ?Hli, ?Hlo; simpl)).
  all: try (repeat split; auto; rewrite <- ?app_assoc; reflexivity).
  all: match goal with
       | |- context [run_script_ops ?ops ?w0] =>
           pose proof (run_script_ops_frame ops w0) as Hf;
           destruct (run_script_ops ops w0) as [[] w1]
       end; simpl in Hf; destruct Hf as (?&?&?&?&?&?&Ht&Hs);
    destruct (fst (luaL_dostring env (scripts_run w) line)); simpl;
    rewrite ?Ht; simpl; repeat split; auto; rewrite <- ?app_assoc; reflexivity.
Qed.

Lemma Lua_Run_effects_lua env w line :
  forallb is_lua_effect (Lua_Run_effects env w line) = true.
Proof.
  unfold Lua_Run_effects.
  destruct (negb (luaInitialized w) && negb (lua_open env)); [reflexivity|].
  destruct (fst (luaL_dostring env (scripts_run w) line)); reflexivity.
Qed.

Lemma Lua_Run_effects_requests env w line :
  run_requests (Lua_Run_effects env w line) = [line].
Proof.
  unfold Lua_Run_effects.
  destruct (negb (luaInitialized w) && negb (lua_open env)); [reflexivity|].
  destruct (fst (luaL_dostring env (scripts_run w) line)); reflexivity.
Qed.

(** One event of the script dispatcher. *)
Lemma dispatch_event_frame env e w :
  let w' := snd (dispatch_event env e w) in
  heldKeys w' = heldKeys w /\ events w' = events w /\
  lastMouseMove w' = lastMouseMove w /\ ticks_read w' = ticks_read w /\
  appends w w' (match map_find e (eventMappings w) with
                | Some c => Lua_Run_effects env w c
                | None => []
                end) /\
  (map_sorted (eventMappings w) = true -> map_sorted (eventMappings w') = true).
Proof.
  unfold dispatch_event, bind, gets, ret. simpl.
  destruct (map_find e (eventMappings w)) as [c|]; simpl.
  - pose proof (Lua_Run_frame env c w) as Hf.
    destruct (Lua_Run env c w) as [b w1]. exact Hf.
  - repeat split; auto. apply appends_refl.
Qed.

Lemma dispatch_events_frame env es w :
  let w' := snd (dispatch_events env es w) in
  heldKeys w' = heldKeys w /\ events w' = events w /\
  lastMouseMove w' = lastMouseMove w /\ ticks_read w' = ticks_read w /\
  (exists d, appends w w' d /\ forallb is_lua_effect d = true /\
             (length (run_requests d) <= length es)%nat) /\
  (map_sorted (eventMappings w) = true -> map_sorted (eventMappings w') = true).
Proof.
  revert w. induction es as [|e es IH]; intros w; simpl.
  - repeat split; auto. exists []. split; [apply appends_refl | auto].
  - unfold bind. pose proof (dispatch_event_frame env e w) as Hf.
    destruct (dispatch_event env e w) as [[] w1]. simpl in Hf.
    specialize (IH w1). simpl in IH.
    destruct Hf as (?&?&?&?&Ha&?). destruct IH as (?&?&?&?&(d&Hd&Hl&Hn)&?).
    repeat split; try congruence; auto.
    eexists. split; [eapply appends_trans; eauto|]. split.
    + rewrite forallb_app, Hl, andb_true_r.
      destruct (map_find e (eventMappings w)); [|reflexivity].
      apply Lua_Run_effects_lua.
    + unfold run_requests in *. rewrite omap_app, length_app.
      destruct (map_find e (eventMappings w)) as [c|].
      * fold (run_requests (Lua_Run_effects env w c)).
        rewrite Lua_Run_effects_requests. simpl. lia.
      * simpl. lia.
Qed.

Lemma dispatch_events_app env es1 es2 w :
  dispatch_events env (es1 ++ es2) w =
  dispatch_events env es2 (snd (dispatch_events env es1 w)).
Proof.
  revert w. induction es1 as [|e es1 IH]; intros w; simpl; [reflexivity|].
  unfold bind. destruct (dispatch_event env e w) as [[] w1]. apply IH.
Qed.

(** ** Translation of one raw sample *)

Lemma handle_event_quit env e b w :
  fst (handle_event env e b w) = b || quit_sample e.
Proof.
  destruct e; simpl; run; try split_if;
    rewrite ?orb_false_r, ?orb_true_r; reflexivity.
Qed.

Lemma handle_event_state env e b w :
  let w' := snd (handle_event env e b w) in
  events w' = events w ++ sample_events (heldKeys w) e /\
  heldKeys w' = sample_held (heldKeys w) e /\
  eventMappings w' = eventMappings w /\
  luaInitialized w' = luaInitialized w /\
  scripts_run w' = scripts_run w /\
  (exists d, appends w w' d /\ forallb is_video_effect d = true).
Proof.
  assert (Hnil : exists d, appends w w d /\ forallb is_video_effect d = true)
    by (exists []; split; [apply appends_refl | reflexivity]).
  destruct e; simpl; run; try split_if;
    rewrite ?app_nil_r, <- ?app_assoc; simpl; auto 10.
  repeat split; auto. exists [Video_EnableMouse]. split; reflexivity.
Qed.

(** ** Translation of a whole queue *)

Lemma poll_loop_quit env q b w :
  fst (poll_loop env q b w) = b || existsb quit_sample q.
Proof.
  revert b w. induction q as [|e q IH]; intros b w; simpl.
  - now rewrite orb_false_r.
  - unfold bind. pose proof (handle_event_quit env e b w) as He.
    destruct (handle_event env e b w) as [b1 w1]. simpl in He.
    rewrite IH, He. now rewrite orb_assoc.
Qed.

Lemma poll_loop_state env q b w :
  let w' := snd (poll_loop env q b w) in
  events w' = events w ++ queue_events (heldKeys w) q /\
  heldKeys w' = queue_held (heldKeys w) q /\
  eventMappings w' = eventMappings w /\
  luaInitialized w' = luaInitialized w /\
  scripts_run w' = scripts_run w /\
  (exists d, appends w w' d /\ forallb is_video_effect d = true).
Proof.
  revert b w. induction q as [|e q IH]; intros b w; simpl.
  - rewrite app_nil_r. repeat split; auto.
    exists []. split; [apply appends_refl | reflexivity].
  - unfold bind. pose proof (handle_event_state env e b w) as He.
    destruct (handle_event env e b w) as [b1 w1]. simpl in He.
    specialize (IH b1 w1). simpl in IH.
    destruct He as (He&Hh&?&?&?&(d1&Hd1&Hv1)).
    destruct IH as (Ie&Ih&?&?&?&(d2&Hd2&Hv2)).
    unfold queue_held in *. simpl. repeat split; try congruence.
    + rewrite Ie, He, Hh, app_assoc. reflexivity.
    + exists (d1 ++ d2). split; [eapply appends_trans; eauto|].
      now rewrite forallb_app, Hv1, Hv2.
Qed.

(** ** The scan over the held-key table *)

Lemma held_loop_state ks w :
  let w' := snd (held_loop ks w) in
  events w' = events w ++ held_events (heldKeys w) ks /\
  heldKeys w' = heldKeys w /\
  lastMouseMove w' = lastMouseMove w /\
  eventMappings w' = eventMappings w /\
  luaInitialized w' = luaInitialized w /\
  ticks_read w' = ticks_read w /\
  scripts_run w' = scripts_run w /\
  trace w' = trace w.
Proof.
  revert w. induction ks as [|k ks IH]; intros w; simpl.
  - unfold held_events. simpl. rewrite app_nil_r. auto 10.
  - run. unfold held_events. simpl.
    destruct (held (heldKeys w) k) eqn:Hk; simpl.
    + match goal with |- context [held_loop ks ?w0] =>
        specialize (IH w0); destruct (held_loop ks w0) as [[] w1] end.
      simpl in IH. destruct IH as (Ie&?&?&?&?&?&?&?).
      simpl. repeat split; auto. rewrite Ie, <- app_assoc. reflexivity.
    + specialize (IH w). destruct (held_loop ks w) as [[] w1].
      simpl in IH. exact IH.
Qed.

(** ** Counting events *)

Lemma occurrences_app e l1 l2 :
  occurrences e (l1 ++ l2) = (occurrences e l1 + occurrences e l2)%nat.
Proof. apply count_occ_app. Qed.

Lemma occurrences_cons e x l :
  occurrences e (x :: l) =
  ((if decide (x = e) then 1 else 0) + occurrences e l)%nat.
Proof.
  unfold occurrences. simpl.
  destruct (InputEvent_eq_dec x e); case_decide; try contradiction; reflexivity.
Qed.

Lemma occurrences_cons_eq e l : occurrences e (e :: l) = S (occurrences e l).
Proof. rewrite occurrences_cons. case_decide; [reflexivity | contradiction]. Qed.

Lemma occurrences_cons_ne e x l :
  x <> e -> occurrences e (x :: l) = occurrences e l.
Proof. intros. rewrite occurrences_cons. case_decide; [contradiction | reflexivity]. Qed.

Lemma occurrences_nil e : occurrences e [] = 0%nat.
Proof. reflexivity. Qed.

Ltac count_events :=
  repeat (rewrite ?occurrences_app, ?occurrences_cons, ?occurrences_nil;
          simpl);
  repeat case_decide; try congruence; try lia.

Lemma sample_events_no_held hk e k :
  occurrences (KeyEvent KEYPRESSED k) (sample_events hk e) = 0%nat.
Proof.
  destruct e; simpl; try reflexivity;
    repeat match goal with
      | |- context [if ?c then _ else _] => destruct c
      end; count_events.
Qed.

Lemma sample_events_no_escape hk e s :
  s = KEYDOWN \/ s = KEYUP ->
  occurrences (KeyEvent s (Z.of_nat SDLK_ESCAPE)) (sample_events hk e) = 0%nat.
Proof.
  intros Hs. destruct e as [|k|k| | | |]; simpl; try reflexivity.
  1,2: destruct (Nat.eqb_spec k SDLK_ESCAPE); count_events;
    match goal with H : KeyEvent _ _ = KeyEvent _ _ |- _ => inversion H end;
    try lia; destruct Hs; congruence.
  all: repeat match goal with
         | |- context [if ?c then _ else _] => destruct c
         end; count_events.
Qed.

Lemma sample_events_down hk e k :
  k <> SDLK_ESCAPE ->
  occurrences (KeyEvent KEYDOWN (Z.of_nat k)) (sample_events hk e) =
  if key_down k e then 1%nat else 0%nat.
Proof.
  intros Hk. destruct e as [|j|j| | | |]; simpl; try reflexivity.
  - destruct (Nat.eqb_spec j SDLK_ESCAPE), (Nat.eqb_spec j k); subst;
      count_events;
      match goal with H : KeyEvent _ _ = KeyEvent _ _ |- _ => inversion H end;
      lia.
  - destruct (Nat.eqb_spec j SDLK_ESCAPE); count_events.
  - destruct (mouseState_true _); count_events.
  - destruct (mouseState_true _); count_events.
Qed.

Lemma queue_events_no_held hk q k :
  occurrences (KeyEvent KEYPRESSED k) (queue_events hk q) = 0%nat.
Proof.
  revert hk. induction q as [|e q IH]; intros hk; simpl; [reflexivity|].
  now rewrite occurrences_app, sample_events_no_held, IH.
Qed.

Lemma queue_events_no_escape hk q s :
  s = KEYDOWN \/ s = KEYUP ->
  occurrences (KeyEvent s (Z.of_nat SDLK_ESCAPE)) (queue_events hk q) = 0%nat.
Proof.
  intros Hs. revert hk. induction q as [|e q IH]; intros hk; simpl;
    [reflexivity|].
  now rewrite occurrences_app, sample_events_no_escape, IH.
Qed.

Lemma queue_events_down hk q k :
  k <> SDLK_ESCAPE ->
  occurrences (KeyEvent KEYDOWN (Z.of_nat k)) (queue_events hk q) =
  length (List.filter (key_down k) q).
Proof.
  intros Hk. revert hk. induction q as [|e q IH]; intros hk; simpl;
    [reflexivity|].
  rewrite occurrences_app, sample_events_down, IH by assumption.
  destruct (key_down k e); reflexivity.
Qed.

Lemma held_events_other hk ks e :
  (forall k, e <> KeyEvent KEYPRESSED k) ->
  occurrences e (held_events hk ks) = 0%nat.
Proof.
  intros He. unfold held_events.
  induction ks as [|k ks IH]; simpl; [reflexivity|].
  destruct (held hk k); simpl; [|exact IH].
  rewrite occurrences_cons_ne, IH; [reflexivity|].
  intros Heq. eapply He. eauto.
Qed.

Lemma held_events_count hk ks k :
  NoDup ks ->
  occurrences (KeyEvent KEYPRESSED (Z.of_nat k)) (held_events hk ks) =
  if held hk k && bool_decide (k ∈ ks) then 1%nat else 0%nat.
Proof.
  unfold held_events. induction 1 as [|j ks Hj Hnd IH]; simpl.
  - now rewrite andb_false_r.
  - destruct (decide (j = k)) as [->|Hne].
    + rewrite (bool_decide_eq_true_2 (k ∈ k :: ks)) by apply list_elem_of_here.
      rewrite andb_true_r.
      assert (bool_decide (k ∈ ks) = false) as Hk
        by (apply bool_decide_eq_false_2; exact Hj).
      rewrite Hk, andb_false_r in IH.
      destruct (held hk k); simpl; [|exact IH].
      now rewrite occurrences_cons_eq, IH.
    + assert (bool_decide (k ∈ j :: ks) = bool_decide (k ∈ ks)) as ->.
      { apply bool_decide_ext. rewrite elem_of_cons.
        split; [intros [Heq|Hin]; [congruence | exact Hin] | auto]. }
      destruct (held hk j); simpl; [|exact IH].
      rewrite occurrences_cons_ne, IH; [reflexivity|].
      intros Heq. inversion Heq. lia.
Qed.

(** ** The held-key table across a queue *)

Lemma sample_held_length hk e : length (sample_held hk e) = length hk.
Proof.
  destruct e; simpl; try reflexivity;
    destruct (_ =? SDLK_ESCAPE)%nat; try reflexivity; apply length_insert.
Qed.

Lemma queue_held_length hk q : length (queue_held hk q) = length hk.
Proof.
  unfold queue_held. revert hk. induction q as [|e q IH]; intros hk; simpl;
    [reflexivity|].
  now rewrite IH, sample_held_length.
Qed.

Lemma queue_held_app hk q1 q2 :
  queue_held hk (q1 ++ q2) = queue_held (queue_held hk q1) q2.
Proof. apply fold_left_app. Qed.

Lemma held_insert_eq hk k b :
  (k < length hk)%nat -> held (<[k := b]> hk) k = b.
Proof. intros H. unfold held. now rewrite list_lookup_insert_eq. Qed.

Lemma held_insert_ne hk j k b :
  j <> k -> held (<[j := b]> hk) k = held hk k.
Proof. intros H. unfold held. now rewrite list_lookup_insert_ne. Qed.

Lemma held_insert_false hk k : held (<[k := false]> hk) k = false.
Proof.
  destruct (decide (k < length hk)%nat) as [Hlt|Hge].
  - now apply held_insert_eq.
  - unfold held. rewrite lookup_ge_None_2; [reflexivity|].
    rewrite length_insert. lia.
Qed.

Lemma sample_held_other hk e k :
  key_transition k e = false -> held (sample_held hk e) k = held hk k.
Proof.
  destruct e as [|j|j| | | |]; simpl; try reflexivity; intros Hj;
    destruct (j =? SDLK_ESCAPE)%nat; try reflexivity;
    apply held_insert_ne; intros ->; rewrite Nat.eqb_refl in Hj; discriminate.
Qed.

Lemma queue_held_quiet hk q k :
  quiet k q = true -> held (queue_held hk q) k = held hk k.
Proof.
  unfold quiet, queue_held. revert hk.
  induction q as [|e q IH]; intros hk; simpl; [reflexivity|].
  rewrite andb_true_iff, negb_true_iff. intros [He Hq].
  now rewrite IH, sample_held_other.
Qed.

Lemma queue_held_no_down hk q k :
  held hk k = false -> no_down k q = true -> held (queue_held hk q) k = false.
Proof.
  unfold no_down, queue_held. revert hk.
  induction q as [|e q IH]; intros hk Hk; simpl; [intros _; exact Hk|].
  rewrite andb_true_iff, negb_true_iff. intros [He Hq].
  apply IH; [|exact Hq].
  destruct e as [|j|j| | | |]; simpl in *; try exact Hk.
  - destruct (j =? SDLK_ESCAPE)%nat; [exact Hk|].
    rewrite held_insert_ne; [exact Hk|].
    intros ->. rewrite Nat.eqb_refl in He. discriminate.
  - destruct (j =? SDLK_ESCAPE)%nat; [exact Hk|].
    destruct (decide (j = k)) as [->|Hne].
    + apply held_insert_false.
    + now rewrite held_insert_ne.
Qed.

Lemma queue_held_down hk q1 q2 k :
  k <> SDLK_ESCAPE -> (k < length hk)%nat -> quiet k q2 = true ->
  held (queue_held hk (q1 ++ SDL_KEYDOWN k :: q2)) k = true.
Proof.
  intros Hk Hlt Hq. rewrite queue_held_app.
  change (queue_held (queue_held hk q1) (SDL_KEYDOWN k :: q2))
    with (queue_held (sample_held (queue_held hk q1) (SDL_KEYDOWN k)) q2).
  rewrite queue_held_quiet by exact Hq. simpl.
  destruct (Nat.eqb_spec k SDLK_ESCAPE); [contradiction|].
  apply held_insert_eq. now rewrite queue_held_length.
Qed.

Lemma queue_held_up hk q1 q2 k :
  k <> SDLK_ESCAPE -> no_down k q2 = true ->
  held (queue_held hk (q1 ++ SDL_KEYUP k :: q2)) k = false.
Proof.
  intros Hk Hq. rewrite queue_held_app.
  change (queue_held (queue_held hk q1) (SDL_KEYUP k :: q2))
    with (queue_held (sample_held (queue_held hk q1) (SDL_KEYUP k)) q2).
  apply queue_held_no_down; [|exact Hq]. simpl.
  destruct (Nat.eqb_spec k SDLK_ESCAPE); [contradiction|].
  apply held_insert_false.
Qed.

Lemma key_down_count_quiet k q :
  quiet k q = true -> length (List.filter (key_down k) q) = 0%nat.
Proof.
  unfold quiet. induction q as [|e q IH]; simpl; [reflexivity|].
  rewrite andb_true_iff, negb_true_iff. intros [He Hq].
  assert (key_down k e = false) as ->
    by (destruct e; simpl in *; auto).
  auto.
Qed.

Lemma key_down_count_single k q1 q2 :
  quiet k q1 = true -> quiet k q2 = true ->
  length (List.filter (key_down k) (q1 ++ SDL_KEYDOWN k :: q2)) = 1%nat.
Proof.
  intros H1 H2. rewrite List.filter_app, length_app. simpl.
  rewrite Nat.eqb_refl. simpl.
  now rewrite !key_down_count_quiet.
Qed.

Lemma quiet_no_down k q : quiet k q = true -> no_down k q = true.
Proof.
  unfold quiet, no_down. induction q as [|e q IH]; simpl; [reflexivity|].
  rewrite !andb_true_iff, !negb_true_iff. intros [He Hq]. split; [|auto].
  destruct e; simpl in *; auto.
Qed.

(** ** The phases of [Update] *)

Lemma Update_translate_state env q w :
  let r := Update_translate env q w in
  fst r = existsb quit_sample q /\
  events (snd r) =
    events w ++ queue_events (heldKeys w) q
    ++ held_events (queue_held (heldKeys w) q) (seq 0 SDLK_LAST) /\
  heldKeys (snd r) = queue_held (heldKeys w) q /\
  eventMappings (snd r) = eventMappings w /\
  luaInitialized (snd r) = luaInitialized w /\
  scripts_run (snd r) = scripts_run w /\
  (exists d, appends w (snd r) d /\ forallb is_video_effect d = true).
Proof.
  unfold Update_translate, bind, ret.
  pose proof (poll_loop_quit env q false w) as Hq.
  pose proof (poll_loop_state env q false w) as Hs.
  destruct (poll_loop env q false w) as [b w1]. simpl in Hq, Hs.
  pose proof (held_loop_state (seq 0 SDLK_LAST) w1) as Hh.
  destruct (held_loop (seq 0 SDLK_LAST) w1) as [[] w2]. simpl in Hh. simpl.
  destruct Hs as (He&Hk&?&?&?&(d&Hd&Hv)).
  destruct Hh as (He2&Hk2&?&?&?&?&?&Ht).
  repeat split; try congruence.
  - rewrite He2, He, Hk, app_assoc. reflexivity.
  - exists d. split; [|exact Hv]. unfold appends in *. congruence.
Qed.

Lemma HandleInput_state s f w :
  let w' := snd (HandleInput s f w) in
  events w' = f (events w) /\ heldKeys w' = heldKeys w /\
  lastMouseMove w' = lastMouseMove w /\ eventMappings w' = eventMappings w /\
  ticks_read w' = ticks_read w /\
  appends w w' [Stage_call s (events w)].
Proof. run. unfold appends. simpl. auto 10. Qed.

Lemma Update_dispatch_state env w :
  let w' := snd (Update_dispatch env w) in
  let e1 := UI_HandleInput env (events w) in
  let e2 := Console_HandleInput env e1 in
  let e3 := Hud_HandleInput env e2 in
  events w' = e3 /\ heldKeys w' = heldKeys w /\
  lastMouseMove w' = lastMouseMove w /\ ticks_read w' = ticks_read w /\
  (exists d, appends w w'
               ([Stage_call UI (events w); Stage_call Console e1;
                 Stage_call Hud e2; Stage_call LuaCallBacks e3] ++ d) /\
             forallb is_lua_effect d = true /\
             (length (run_requests d) <= length e3)%nat) /\
  (map_sorted (eventMappings w) = true -> map_sorted (eventMappings w') = true).
Proof.
  cbv zeta. unfold Update_dispatch, bind.
  pose proof (HandleInput_state UI (UI_HandleInput env) w) as H1.
  destruct (HandleInput UI (UI_HandleInput env) w) as [[] w1]. simpl in H1.
  pose proof (HandleInput_state Console (Console_HandleInput env) w1) as H2.
  destruct (HandleInput Console (Console_HandleInput env) w1) as [[] w2].
  simpl in H2.
  pose proof (HandleInput_state Hud (Hud_HandleInput env) w2) as H3.
  destruct (HandleInput Hud (Hud_HandleInput env) w2) as [[] w3].
  simpl in H3. unfold HandleLuaCallBacks. run.
  match goal with |- context [dispatch_events env ?es ?w0] =>
    pose proof (dispatch_events_frame env es w0) as H4;
    destruct (dispatch_events env es w0) as [[] w4] end.
  simpl in H4.
  destruct H1 as (E1&K1&L1&M1&T1&A1). destruct H2 as (E2&K2&L2&M2&T2&A2).
  destruct H3 as (E3&K3&L3&M3&T3&A3).
  destruct H4 as (K4&E4&L4&T4&(d&A4&Hl&Hn)&S4).
  simpl. repeat split; try congruence.
  - exists d. split; [|split; [exact Hl | now rewrite <- E1, <- E2, <- E3]].
    unfold appends in *. simpl in A4.
    rewrite A4, A3, A2, A1, E3, E2, E1. rewrite <- !app_assoc. reflexivity.
  - intros Hs. apply S4. congruence.
Qed.

Lemma Update_mouse_fade_state env w :
  let w' := snd (Update_mouse_fade env w) in
  events w' = events w /\ heldKeys w' = heldKeys w /\
  eventMappings w' = eventMappings w /\
  appends w w' (if fade_test env w then [Video_DisableMouse] else []).
Proof.
  unfold Update_mouse_fade, fade_test, appends. run.
  destruct (_ && _); simpl; rewrite ?app_nil_r; auto.
Qed.

Lemma Update_phases env q w :
  let w1 := snd (Update_translate env q w) in
  let w2 := snd (Update_dispatch env w1) in
  let w3 := snd (Update_mouse_fade env w2) in
  Update env q w =
  (fst (Update_translate env q w), with_events (fun _ => []) w3).
Proof.
  unfold Update, bind, modify, ret.
  destruct (Update_translate env q w) as [b w1]. simpl.
  destruct (Update_dispatch env w1) as [[] w2]. simpl.
  destruct (Update_mouse_fade env w2) as [[] w3]. reflexivity.
Qed.

(** * The claims *)

(** ** Event identity *)

(** C7. Equality and ordering of events are consistent total relations on
    the full tuple of fields: two events compare equal exactly when they are
    built from the same kind, sub-state and remaining fields; the ordering is
    a strict total order whose incomparable pairs are exactly the equal ones;
    equal events order identically against every third event; and two mouse
    events with the same sub-state but different coordinates compare
    unequal. *)
Theorem InputEvent_identity_and_order :
  (forall e1 e2, InputEvent_eq e1 e2 = true <-> e1 = e2) /\
  (forall e1 e2,
      InputEvent_eq e1 e2 =
      negb (InputEvent_lt e1 e2) && negb (InputEvent_lt e2 e1)) /\
  (forall e, InputEvent_lt e e = false) /\
  (forall e1 e2 e3,
      InputEvent_lt e1 e2 = true -> InputEvent_lt e2 e3 = true ->
      InputEvent_lt e1 e3 = true) /\
  (forall e1 e2,
      InputEvent_eq e1 e2 = true \/ InputEvent_lt e1 e2 = true \/
      InputEvent_lt e2 e1 = true) /\
  (forall e1 e2 e,
      InputEvent_eq e1 e2 = true ->
      InputEvent_lt e1 e = InputEvent_lt e2 e /\
      InputEvent_lt e e1 = InputEvent_lt e e2) /\
  (forall s x y x' y',
      x <> x' \/ y <> y' ->
      InputEvent_eq (MouseEvent s x y) (MouseEvent s x' y') = false).
Proof.
  assert (Hcons : forall e1 e2,
             InputEvent_eq e1 e2 =
             negb (InputEvent_lt e1 e2) && negb (InputEvent_lt e2 e1)).
  { intros e1 e2. destruct (InputEvent_eq e1 e2) eqn:He.
    - apply InputEvent_eq_spec in He as ->.
      now rewrite InputEvent_lt_irrefl.
    - destruct (InputEvent_lt e1 e2) eqn:H1; [reflexivity|].
      destruct (InputEvent_lt e2 e1) eqn:H2; [reflexivity|].
      pose proof (InputEvent_lt_total _ _ H1 H2) as Heq.
      apply InputEvent_eq_spec in Heq. congruence. }
  split; [exact InputEvent_eq_spec|].
  split; [exact Hcons|].
  split; [exact InputEvent_lt_irrefl|].
  split; [exact InputEvent_lt_trans|].
  split; [|split].
  - intros e1 e2. rewrite Hcons.
    destruct (InputEvent_lt e1 e2), (InputEvent_lt e2 e1); auto.
  - intros e1 e2 e He. apply InputEvent_eq_spec in He as ->. auto.
  - intros s x y x' y' Hne.
    destruct (InputEvent_eq (MouseEvent s x y) (MouseEvent s x' y')) eqn:He;
      [|reflexivity].
    apply InputEvent_eq_spec in He. inversion He. lia.
Qed.

(** ** The callback registry *)

(** C8. A registry in key order holds at most one binding per event.  If
    an event is already bound to a command, registering it again
    leaves the registry (and the whole state) unchanged, the lookup still
    yields the first command and dispatching the event requests exactly
    that command; one [UnRegisterCallBack] then leaves no binding for the
    event, and dispatching it does nothing. *)
Theorem RegisterCallBack_first_binding_wins
  (env : Env) (w : World) (e : InputEvent) (c c' : string) :
  map_sorted (eventMappings w) = true ->
  map_find e (eventMappings w) = Some c ->
  let w1 := snd (RegisterCallBack e c' w) in
  let w2 := snd (UnRegisterCallBack e w1) in
  (forall c1 c2,
      In (e, c1) (eventMappings w) -> In (e, c2) (eventMappings w) ->
      c1 = c2) /\
  w1 = w /\
  map_find e (eventMappings w1) = Some c /\
  run_requests (added w1 (snd (dispatch_event env e w1))) = [c] /\
  (forall c'', ~ In (e, c'') (eventMappings w2)) /\
  map_find e (eventMappings w2) = None /\
  dispatch_event env e w2 = (tt, w2).
Proof.
  intros Hs Hf w1 w2.
  assert (Hw1 : w1 = w).
  { subst w1. run. destruct w. unfold with_eventMappings. simpl in *.
    f_equal. eapply map_insert_present. exact Hf. }
  assert (Hm2 : eventMappings w2 = map_erase e (eventMappings w)).
  { subst w2. rewrite Hw1. reflexivity. }
  assert (Hf2 : map_find e (eventMappings w2) = None).
  { rewrite Hm2. now apply map_find_erase. }
  clearbody w2. split.
  { intros c1 c2 H1 H2. apply map_find_In in H1, H2; [congruence | | ];
      exact Hs. }
  split; [exact Hw1|]. rewrite Hw1.
  split; [exact Hf|]. split; [|split; [|split]].
  - pose proof (dispatch_event_frame env e w) as Hd. simpl in Hd.
    destruct Hd as (_&_&_&_&Ha&_). rewrite Hf in Ha.
    rewrite (added_appends _ _ _ Ha). apply Lua_Run_effects_requests.
  - intros c''. rewrite Hm2. now apply map_erase_absent.
  - exact Hf2.
  - unfold dispatch_event, bind, gets, ret. simpl. now rewrite Hf2.
Qed.

Lemma RegisterCallBack_first_binding_wins_witness :
  map_sorted (eventMappings bound_world) = true /\
  map_find (KeyEvent KEYDOWN 97) (eventMappings bound_world) = Some "fire()" /\
  snd (RegisterCallBack (KeyEvent KEYDOWN 97) "other()" bound_world)
    = bound_world /\
  map_find (KeyEvent KEYDOWN 97)
    (eventMappings
       (snd (UnRegisterCallBack (KeyEvent KEYDOWN 97)
               (snd (RegisterCallBack (KeyEvent KEYDOWN 97) "other()"
                       bound_world))))) = None.
Proof.
  split; [reflexivity|]. split; [reflexivity|].
  pose proof (RegisterCallBack_first_binding_wins idle_env bound_world
                (KeyEvent KEYDOWN 97) "fire()" "other()"
                eq_refl eq_refl) as H.
  split; [apply H | apply H].
Defined.

(** ** The script-callback dispatcher *)

(** C5. In the loop of [HandleLuaCallBacks], whatever the events before
    it did (including failed scripts), an event [e] is looked up by exact
    identity: the lookup yields [c] exactly when the binding [(e, c)] is in
    the registry.  A hit produces exactly one execution request, for [c],
    followed only by log entries; when the script fails an error is logged,
    when the interpreter cannot be started a warning is logged.  A miss
    changes nothing.  In every case the loop goes on with the remaining
    events. *)
Theorem dispatch_exact_identity
  (env : Env) (w : World) (es1 : list InputEvent) (e : InputEvent)
  (es2 : list InputEvent) :
  map_sorted (eventMappings w) = true ->
  let w1 := snd (dispatch_events env es1 w) in
  let w2 := snd (dispatch_event env e w1) in
  let m := eventMappings w1 in
  (forall c, map_find e m = Some c <-> In (e, c) m) /\
  (forall c, map_find e m = Some c ->
     run_requests (added w1 w2) = [c] /\
     (exists logs, added w1 w2 = Call_Lua_Run c :: logs /\
                   run_requests logs = [] /\
                   forallb is_lua_effect logs = true) /\
     (luaInitialized w1 = true \/ lua_open env = true ->
      fst (luaL_dostring env (scripts_run w1) c) = true ->
      In (Log_Error c) (added w1 w2)) /\
     (luaInitialized w1 = false -> lua_open env = false ->
      In (Log_Warning "Could not load Lua script. Unable to initialize Lua.")
         (added w1 w2))) /\
  (map_find e m = None -> dispatch_event env e w1 = (tt, w1)) /\
  dispatch_events env (es1 ++ e :: es2) w = dispatch_events env es2 w2.
Proof.
  intros Hs w1 w2 m.
  assert (Hs1 : map_sorted m = true).
  { subst m w1. now apply dispatch_events_frame. }
  split; [intros c; now apply map_find_In|].
  split; [|split].
  - intros c Hf.
    pose proof (dispatch_event_frame env e w1) as Hd. simpl in Hd.
    destruct Hd as (_&_&_&_&Ha&_). fold w2 in Ha. fold m in Ha.
    rewrite Hf in Ha. rewrite (added_appends _ _ _ Ha).
    unfold Lua_Run_effects.
    split; [apply Lua_Run_effects_requests|]. split; [|split].
    + eexists. split; [reflexivity|].
      destruct (negb (luaInitialized w1) && negb (lua_open env));
        [split; reflexivity|].
      destruct (fst (luaL_dostring env (scripts_run w1) c)); split; reflexivity.
    + intros Hi Herr. rewrite Herr.
      assert (negb (luaInitialized w1) && negb (lua_open env) = false) as ->
        by (destruct Hi as [-> | ->]; simpl; rewrite ?andb_false_r; reflexivity).
      simpl. auto.
    + intros -> ->. simpl. auto.
  - intros Hf. unfold dispatch_event, bind, gets, ret. simpl.
    fold m. now rewrite Hf.
  - rewrite dispatch_events_app. fold w1. simpl. unfold bind.
    subst w2. destruct (dispatch_event env e w1) as [[] w2]. reflexivity.
Qed.

Lemma dispatch_exact_identity_witness :
  map_sorted (eventMappings bound_world) = true /\
  run_requests
    (added bound_world
       (snd (dispatch_event greedy_env (KeyEvent KEYDOWN 97) bound_world)))
  = ["fire()"] /\
  In (Log_Error "fire()")
    (added bound_world
       (snd (dispatch_event greedy_env (KeyEvent KEYDOWN 97) bound_world))) /\
  dispatch_event greedy_env (KeyEvent KEYUP 97) bound_world
  = (tt, bound_world).
Proof.
  split; [reflexivity|].
  pose proof (dispatch_exact_identity greedy_env bound_world []
                (KeyEvent KEYDOWN 97) [] eq_refl) as (_ & Hhit & _).
  pose proof (dispatch_exact_identity greedy_env bound_world []
                (KeyEvent KEYUP 97) [] eq_refl) as (_ & _ & Hmiss & _).
  destruct (Hhit "fire()" eq_refl) as (Hrun & _ & Hlog & _).
  split; [exact Hrun|].
  split; [apply Hlog; [right|]; reflexivity|].
  apply Hmiss. reflexivity.
Defined.

(** ** The dispatch chain *)

(** C4. In one call of [Update] the stages are called in the order
    interface layer, console, overlay, script dispatcher; the first receives
    the translated list and each later one receives exactly what its
    predecessor left.  The frame requests at most one script execution per
    event that reached the dispatcher, so none when the earlier stages
    consumed everything.  When the console and the overlay only remove
    events, an event missing from what a stage left is missing from what
    every later stage receives.  After the call the event list is empty. *)
Theorem Update_stage_order (env : Env) (q : list SDL_Event) (w : World) :
  let evs0 := events (snd (Update_translate env q w)) in
  let evs1 := UI_HandleInput env evs0 in
  let evs2 := Console_HandleInput env evs1 in
  let evs3 := Hud_HandleInput env evs2 in
  stage_calls (frame_trace env q w) =
    [Stage_call UI evs0; Stage_call Console evs1;
     Stage_call Hud evs2; Stage_call LuaCallBacks evs3] /\
  events (snd (Update env q w)) = [] /\
  (length (run_requests (frame_trace env q w)) <= length evs3)%nat /\
  ((forall l x, In x (Console_HandleInput env l) -> In x l) ->
   (forall l x, In x (Hud_HandleInput env l) -> In x l) ->
   forall x,
     (~ In x evs1 -> ~ In x evs2 /\ ~ In x evs3) /\
     (~ In x evs2 -> ~ In x evs3)).
Proof.
  intros evs0 evs1 evs2 evs3.
  pose proof (Update_phases env q w) as Hp. cbv zeta in Hp.
  pose proof (Update_translate_state env q w) as Ht. cbv zeta in Ht.
  destruct Ht as (_&_&_&_&_&_&(d1&Hd1&Hv1)).
  set (w1 := snd (Update_translate env q w)) in *.
  pose proof (Update_dispatch_state env w1) as Hd. cbv zeta in Hd.
  destruct Hd as (_&_&_&_&(d2&Hd2&Hl2&Hn2)&_).
  set (w2 := snd (Update_dispatch env w1)) in *.
  pose proof (Update_mouse_fade_state env w2) as Hf. cbv zeta in Hf.
  destruct Hf as (_&_&_&Hd3).
  set (w3 := snd (Update_mouse_fade env w2)) in *.
  assert (Hframe : frame_trace env q w =
                   (d1 ++ [Stage_call UI evs0; Stage_call Console evs1;
                           Stage_call Hud evs2; Stage_call LuaCallBacks evs3]
                       ++ d2)
                   ++ (if fade_test env w2 then [Video_DisableMouse] else [])).
  { unfold frame_trace. rewrite Hp. simpl. fold (added w w3).
    apply added_appends.
    exact (appends_trans _ _ _ _ _ (appends_trans _ _ _ _ _ Hd1 Hd2) Hd3). }
  split; [|split; [|split]].
  - rewrite Hframe, !stage_calls_app.
    rewrite (stage_calls_video _ Hv1), (stage_calls_lua _ Hl2). simpl.
    destruct (fade_test env w2); reflexivity.
  - rewrite Hp. reflexivity.
  - rewrite Hframe, !run_requests_app, (run_requests_video _ Hv1). simpl.
    rewrite length_app.
    destruct (fade_test env w2); simpl; fold evs0 evs1 evs2 evs3 in Hn2; lia.
  - intros Hc Hh x. subst evs3 evs2. split.
    + intros H1. split; [auto|]. intros H3. apply H1. auto.
    + intros H2 H3. apply H2. auto.
Qed.

Lemma Update_stage_order_witness :
  stage_calls (frame_trace greedy_env
                 [SDL_KEYDOWN key_a; SDL_MOUSEMOTION 3 4] bound_world) =
    [Stage_call UI [KeyEvent KEYDOWN 97; KeyEvent KEYTYPED 97;
                    MouseEvent MOUSEMOTION 3 4; KeyEvent KEYPRESSED 97];
     Stage_call Console [MouseEvent MOUSEMOTION 3 4];
     Stage_call Hud [MouseEvent MOUSEMOTION 3 4];
     Stage_call LuaCallBacks [MouseEvent MOUSEMOTION 3 4]] /\
  events (snd (Update greedy_env
                 [SDL_KEYDOWN key_a; SDL_MOUSEMOTION 3 4] bound_world)) = [].
Proof.
  pose proof (Update_stage_order greedy_env
                [SDL_KEYDOWN key_a; SDL_MOUSEMOTION 3 4] bound_world)
    as (Hcalls & Hclear & _ & _).
  split; [exact Hcalls | exact Hclear].
Defined.

(** ** The quit signal *)

Lemma Update_returns_quit_sample env q w :
  fst (Update env q w) = existsb quit_sample q.
Proof.
  rewrite Update_phases. simpl. apply Update_translate_state.
Qed.

(** C6, as stated, fails: a frame whose queue holds a window-close
    request and no escape transition makes [Update] return [true]. *)
Lemma Update_quit_without_escape :
  existsb escape_transition [SDL_QUIT] = false /\
  fst (Update idle_env [SDL_QUIT] Input_init) = true.
Proof. split; [reflexivity | vm_compute; reflexivity]. Qed.

(** C6, amended. The value [Update] returns is [true] exactly when the
    frame's queue holds an escape transition or a window-close request.  So
    the flag is [false] for an empty queue, once set by a prefix of the
    queue it stays set whatever follows, and it does not depend on the state
    left by earlier frames: a frame after a quitting frame returns [false]
    again unless its own queue holds such a sample. *)
Theorem Update_quit_signal (env : Env) (q : list SDL_Event) (w : World) :
  fst (Update env q w) = existsb quit_sample q /\
  fst (Update env [] w) = false /\
  (forall b q1 q2 w',
      fst (poll_loop env q1 b w') = true ->
      fst (poll_loop env (q1 ++ q2) b w') = true) /\
  (forall env' q',
      fst (Update env q (snd (Update env' q' w))) = existsb quit_sample q).
Proof.
  split; [apply Update_returns_quit_sample|].
  split; [apply Update_returns_quit_sample|]. split.
  - intros b q1 q2 w'. rewrite !poll_loop_quit, existsb_app.
    intros H. now rewrite orb_assoc, H.
  - intros env' q'. apply Update_returns_quit_sample.
Qed.

(** ** The escape key *)

(** C1, as stated, fails: a frame with an escape key-down makes [Update]
    return [true], but the event list built for the frame does not contain
    the key-down event of the escape key; the same with a key-up. *)
Lemma escape_down_emits_no_event :
  fst (Update idle_env [SDL_KEYDOWN SDLK_ESCAPE] Input_init) = true /\
  ~ In (KeyEvent KEYDOWN (Z.of_nat SDLK_ESCAPE))
       (events (snd (Update_translate idle_env [SDL_KEYDOWN SDLK_ESCAPE]
                       Input_init))) /\
  fst (Update idle_env [SDL_KEYUP SDLK_ESCAPE] Input_init) = true /\
  ~ In (KeyEvent KEYUP (Z.of_nat SDLK_ESCAPE))
       (events (snd (Update_translate idle_env [SDL_KEYUP SDLK_ESCAPE]
                       Input_init))).
Proof.
  split; [vm_compute; reflexivity|].
  split; [vm_compute; intros []|].
  split; [vm_compute; reflexivity|].
  vm_compute. intros [].
Qed.

(** C1, amended. A frame whose queue holds an escape key-down or key-up
    makes [Update] return [true]; the handlers leave the state untouched on
    such a transition, and the translation of the frame adds neither a
    key-down nor a key-up event of the escape key to the event list. *)
Theorem escape_raises_quit_only (env : Env) (q : list SDL_Event) (w : World) :
  existsb escape_transition q = true ->
  fst (Update env q w) = true /\
  _UpdateHandleKeyDown SDLK_ESCAPE w = (true, w) /\
  _UpdateHandleKeyUp SDLK_ESCAPE w = (true, w) /\
  (forall s, s = KEYDOWN \/ s = KEYUP ->
     occurrences (KeyEvent s (Z.of_nat SDLK_ESCAPE))
       (events (snd (Update_translate env q w))) =
     occurrences (KeyEvent s (Z.of_nat SDLK_ESCAPE)) (events w)).
Proof.
  intros Hq. split; [|split; [reflexivity | split; [reflexivity|]]].
  - rewrite Update_returns_quit_sample. apply existsb_exists.
    apply existsb_exists in Hq as (e & Hin & He).
    exists e. split; [exact Hin|]. destruct e; simpl in *; auto.
  - intros s Hs.
    pose proof (Update_translate_state env q w) as Ht. cbv zeta in Ht.
    destruct Ht as (_ & -> & _).
    rewrite !occurrences_app, queue_events_no_escape by exact Hs.
    rewrite held_events_other; [lia|].
    intros k. destruct Hs as [-> | ->]; discriminate.
Qed.

Lemma escape_raises_quit_only_witness :
  existsb escape_transition [SDL_KEYDOWN key_a; SDL_KEYUP SDLK_ESCAPE] = true /\
  fst (Update idle_env [SDL_KEYDOWN key_a; SDL_KEYUP SDLK_ESCAPE] Input_init)
  = true /\
  occurrences (KeyEvent KEYUP (Z.of_nat SDLK_ESCAPE))
    (events (snd (Update_translate idle_env
                    [SDL_KEYDOWN key_a; SDL_KEYUP SDLK_ESCAPE] Input_init)))
  = 0%nat.
Proof.
  split; [reflexivity|].
  pose proof (escape_raises_quit_only idle_env
                [SDL_KEYDOWN key_a; SDL_KEYUP SDLK_ESCAPE] Input_init eq_refl)
    as (Hquit & _ & _ & Hnone).
  split; [exact Hquit|]. rewrite (Hnone KEYUP); [reflexivity | now right].
Defined.

(** ** Held keys across frames *)

Lemma Update_state env q w :
  heldKeys (snd (Update env q w)) = queue_held (heldKeys w) q /\
  events (snd (Update env q w)) = [].
Proof.
  rewrite Update_phases. simpl. split; [|reflexivity].
  pose proof (Update_translate_state env q w) as Ht. cbv zeta in Ht.
  destruct Ht as (_&_&Hk&_).
  pose proof (Update_dispatch_state env (snd (Update_translate env q w))) as Hd.
  cbv zeta in Hd. destruct Hd as (_&Hk2&_).
  pose proof (Update_mouse_fade_state env
                (snd (Update_dispatch env (snd (Update_translate env q w)))))
    as Hf. cbv zeta in Hf. destruct Hf as (_&Hk3&_).
  congruence.
Qed.

(** What every state between two frames satisfies: the table has its
    declared size, the event list is empty and the registry is in key
    order.  It holds initially and [Update] preserves it. *)
Lemma Input_init_invariant :
  length (heldKeys Input_init) = SDLK_LAST /\ events Input_init = [] /\
  map_sorted (eventMappings Input_init) = true.
Proof. repeat split. Qed.

Lemma Update_invariant env q w :
  length (heldKeys w) = SDLK_LAST -> map_sorted (eventMappings w) = true ->
  length (heldKeys (snd (Update env q w))) = SDLK_LAST /\
  events (snd (Update env q w)) = [] /\
  map_sorted (eventMappings (snd (Update env q w))) = true.
Proof.
  intros Hl Hs. destruct (Update_state env q w) as [Hk He].
  split; [now rewrite Hk, queue_held_length|]. split; [exact He|].
  rewrite Update_phases. simpl.
  pose proof (Update_translate_state env q w) as Ht. cbv zeta in Ht.
  destruct Ht as (_&_&_&Hm&_).
  pose proof (Update_dispatch_state env (snd (Update_translate env q w))) as Hd.
  cbv zeta in Hd. destruct Hd as (_&_&_&_&_&Hs2).
  pose proof (Update_mouse_fade_state env
                (snd (Update_dispatch env (snd (Update_translate env q w)))))
    as Hf. cbv zeta in Hf. destruct Hf as (_&_&Hm3&_).
  rewrite Hm3. apply Hs2. now rewrite Hm.
Qed.

(** Down and Held events of key [k] in the list one frame builds. *)
Lemma frame_events_counts env q w k :
  events w = [] -> (k < SDLK_LAST)%nat ->
  let evs := events (snd (Update_translate env q w)) in
  occurrences (KeyEvent KEYPRESSED (Z.of_nat k)) evs =
    (if held (queue_held (heldKeys w) q) k then 1%nat else 0%nat) /\
  (k <> SDLK_ESCAPE ->
   occurrences (KeyEvent KEYDOWN (Z.of_nat k)) evs =
     length (List.filter (key_down k) q)).
Proof.
  intros He Hk evs. subst evs.
  pose proof (Update_translate_state env q w) as Ht. cbv zeta in Ht.
  destruct Ht as (_ & -> & _). rewrite He, app_nil_l. split.
  - rewrite occurrences_app, queue_events_no_held.
    rewrite held_events_count by apply NoDup_seq.
    rewrite (bool_decide_eq_true_2 (k ∈ seq 0 SDLK_LAST)), andb_true_r;
      [reflexivity|].
    apply elem_of_seq. lia.
  - intros Hne. rewrite occurrences_app, queue_events_down by exact Hne.
    rewrite held_events_other; [lia | discriminate].
Qed.

Lemma run_frames_length fs w : length (run_frames fs w) = length fs.
Proof.
  revert w. induction fs as [|[env q] fs IH]; intros w; simpl; auto.
Qed.

Lemma run_frames_held k (later : list Frame) w i evs b :
  k <> SDLK_ESCAPE -> (k < SDLK_LAST)%nat -> events w = [] ->
  held (heldKeys w) k = true ->
  Forall (fun f => quiet k (snd f) = true) later ->
  run_frames later w !! i = Some (evs, b) ->
  occurrences (KeyEvent KEYDOWN (Z.of_nat k)) evs = 0%nat /\
  occurrences (KeyEvent KEYPRESSED (Z.of_nat k)) evs = 1%nat.
Proof.
  intros Hne Hk. revert w i.
  induction later as [|[env q] later IH]; intros w i He Hh Hq Hi;
    [destruct i; discriminate|].
  inversion Hq as [|? ? Hq1 Hq2]; subst. simpl in Hq1.
  destruct (Update_state env q w) as [Hk' He'].
  destruct i as [|i]; simpl in Hi.
  - inversion Hi; subst.
    destruct (frame_events_counts env q w k He Hk) as [Hheld Hdown].
    rewrite Hheld, (Hdown Hne), queue_held_quiet, Hh by exact Hq1.
    now rewrite key_down_count_quiet.
  - eapply IH; [exact He' | | exact Hq2 | exact Hi].
    rewrite Hk', queue_held_quiet by exact Hq1. exact Hh.
Qed.

Lemma run_frames_released k (later : list Frame) w i evs b :
  (k < SDLK_LAST)%nat -> events w = [] ->
  held (heldKeys w) k = false ->
  Forall (fun f => no_down k (snd f) = true) later ->
  run_frames later w !! i = Some (evs, b) ->
  occurrences (KeyEvent KEYPRESSED (Z.of_nat k)) evs = 0%nat.
Proof.
  intros Hk. revert w i.
  induction later as [|[env q] later IH]; intros w i He Hh Hq Hi;
    [destruct i; discriminate|].
  inversion Hq as [|? ? Hq1 Hq2]; subst. simpl in Hq1.
  destruct (Update_state env q w) as [Hk' He'].
  destruct i as [|i]; simpl in Hi.
  - inversion Hi; subst.
    destruct (frame_events_counts env q w k He Hk) as [Hheld _].
    now rewrite Hheld, queue_held_no_down.
  - eapply IH; [exact He' | | exact Hq2 | exact Hi].
    rewrite Hk'. now apply queue_held_no_down.
Qed.

(** C2. Let [k] be a key other than escape and let the frame's only
    transition of [k] be one key-down.  Whatever else the queue holds, and
    for any number of following frames without a transition of [k], the
    event list of the first frame holds exactly one Down event of [k], the
    lists of the following frames hold none, and the list of every frame,
    the first included, holds exactly one Held event of [k].  If instead the
    last transition of [k] in the frame is a key-up, neither that frame nor
    any following frame without a key-down of [k] holds a Held event of
    [k]. *)
Theorem held_key_repeats (k : SDLKey) (w : World) :
  k <> SDLK_ESCAPE -> (k < SDLK_LAST)%nat ->
  length (heldKeys w) = SDLK_LAST -> events w = [] ->
  (forall env q1 q2 (later : list Frame) i evs b,
      quiet k q1 = true -> quiet k q2 = true ->
      Forall (fun f => quiet k (snd f) = true) later ->
      run_frames ((env, q1 ++ SDL_KEYDOWN k :: q2) :: later) w !! i
        = Some (evs, b) ->
      occurrences (KeyEvent KEYDOWN (Z.of_nat k)) evs
        = (if i is O then 1%nat else 0%nat) /\
      occurrences (KeyEvent KEYPRESSED (Z.of_nat k)) evs = 1%nat) /\
  (forall env q1 q2 (later : list Frame) i evs b,
      no_down k q2 = true ->
      Forall (fun f => no_down k (snd f) = true) later ->
      run_frames ((env, q1 ++ SDL_KEYUP k :: q2) :: later) w !! i
        = Some (evs, b) ->
      occurrences (KeyEvent KEYPRESSED (Z.of_nat k)) evs = 0%nat) /\
  (forall fs, length (run_frames fs w) = length fs).
Proof.
  intros Hne Hk Hlen He. split; [|split].
  - intros env q1 q2 later i evs b Hq1 Hq2 Hl Hi.
    destruct (Update_state env (q1 ++ SDL_KEYDOWN k :: q2) w) as [Hk' He'].
    assert (Hh : held (queue_held (heldKeys w) (q1 ++ SDL_KEYDOWN k :: q2)) k
                 = true)
      by (apply queue_held_down; [exact Hne | lia | exact Hq2]).
    destruct i as [|i]; simpl in Hi.
    + inversion Hi; subst.
      destruct (frame_events_counts env (q1 ++ SDL_KEYDOWN k :: q2) w k He Hk)
        as [Hheld Hdown].
      rewrite Hheld, (Hdown Hne), Hh.
      now rewrite key_down_count_single.
    + eapply run_frames_held; eauto. now rewrite Hk'.
  - intros env q1 q2 later i evs b Hq2 Hl Hi.
    destruct (Update_state env (q1 ++ SDL_KEYUP k :: q2) w) as [Hk' He'].
    assert (Hh : held (queue_held (heldKeys w) (q1 ++ SDL_KEYUP k :: q2)) k
                 = false)
      by (apply queue_held_up; assumption).
    destruct i as [|i]; simpl in Hi.
    + inversion Hi; subst.
      destruct (frame_events_counts env (q1 ++ SDL_KEYUP k :: q2) w k He Hk)
        as [Hheld _].
      now rewrite Hheld, Hh.
    + eapply run_frames_released; eauto. now rewrite Hk'.
  - intros fs. apply run_frames_length.
Qed.

Lemma held_key_repeats_witness :
  (key_a <> SDLK_ESCAPE /\ (key_a < SDLK_LAST)%nat /\
   length (heldKeys Input_init) = SDLK_LAST /\ events Input_init = []) /\
  (forall evs b,
      run_frames [(idle_env, [SDL_MOUSEMOTION 1 2; SDL_KEYDOWN key_a]);
                  (idle_env, []); (greedy_env, [SDL_KEYDOWN 98%nat])]
        Input_init !! 2%nat = Some (evs, b) ->
      occurrences (KeyEvent KEYDOWN (Z.of_nat key_a)) evs = 0%nat /\
      occurrences (KeyEvent KEYPRESSED (Z.of_nat key_a)) evs = 1%nat) /\
  (forall evs b,
      run_frames [(idle_env, [SDL_KEYUP key_a]); (idle_env, [])]
        Input_init !! 1%nat = Some (evs, b) ->
      occurrences (KeyEvent KEYPRESSED (Z.of_nat key_a)) evs = 0%nat).
Proof.
  assert (H1 : key_a <> SDLK_ESCAPE) by discriminate.
  assert (H2 : (key_a < SDLK_LAST)%nat) by (unfold key_a, SDLK_LAST; lia).
  assert (H3 : length (heldKeys Input_init) = SDLK_LAST) by reflexivity.
  assert (H4 : events Input_init = []) by reflexivity.
  split; [auto|].
  destruct (held_key_repeats key_a Input_init H1 H2 H3 H4) as (Hd & Hu & _).
  split.
  - intros evs b Hi.
    apply (Hd idle_env [SDL_MOUSEMOTION 1 2] []
             [(idle_env, []); (greedy_env, [SDL_KEYDOWN 98%nat])]
             2%nat evs b eq_refl eq_refl); [|exact Hi].
    repeat constructor.
  - intros evs b Hi.
    apply (Hu idle_env [] [] [(idle_env, [])] 1%nat evs b eq_refl); [|exact Hi].
    repeat constructor.
Defined.

(** ** Typed characters *)

Lemma typed_letter_shift hk hk' key :
  shift_held hk = shift_held hk' -> typed_letter hk key = typed_letter hk' key.
Proof. unfold typed_letter, shift_held. intros ->. reflexivity. Qed.

Lemma typed_letter_no_shift hk key :
  shift_held hk = false -> typed_letter hk key = typed_reference false key.
Proof.
  unfold typed_letter, typed_reference, shift_held. intros ->. reflexivity.
Qed.

Lemma lookup_pair_None k t :
  forallb (fun p => negb (fst p =? k)%nat) t = true -> lookup_pair k t = None.
Proof.
  induction t as [|[a b] t IH]; simpl; [reflexivity|].
  rewrite andb_true_iff, negb_true_iff. intros [-> Ht]. auto.
Qed.

Lemma shift_pairs_small k :
  (SDLK_LAST <= k)%nat -> lookup_pair k shift_pairs = None.
Proof.
  intros Hk. apply lookup_pair_None.
  assert (Hs : forallb (fun p => (fst p <? SDLK_LAST)%nat) shift_pairs = true)
    by (vm_compute; reflexivity).
  rewrite forallb_forall in *. intros p Hp. specialize (Hs p Hp).
  apply Nat.ltb_lt in Hs. apply negb_true_iff, Nat.eqb_neq. lia.
Qed.

Ltac key_cases :=
  repeat match goal with
    | |- context [(?a <=? ?b)%nat] =>
        destruct (Nat.leb_spec a b); try lia; cbn [andb orb]
    | |- context [(?a =? ?b)%nat] =>
        destruct (Nat.eqb_spec a b); try lia; cbn [andb orb]
    end.

Lemma typed_letter_large hk key :
  (SDLK_LAST <= key)%nat -> typed_letter hk key = Z.of_nat key.
Proof.
  unfold typed_letter, SDLK_LAST, SDLK_a, SDLK_z, SDLK_0, SDLK_9, SDLK_QUOTE,
    SDLK_SEMICOLON, SDLK_BACKQUOTE, SDLK_MINUS, SDLK_SLASH, SDLK_COMMA,
    SDLK_PERIOD, SDLK_BACKSLASH, SDLK_LEFTBRACKET, SDLK_RIGHTBRACKET,
    SDLK_EQUALS, SDLK_RETURN, SDLK_KP_ENTER.
  intros Hk. key_cases. destruct (_ || _); reflexivity.
Qed.

Lemma typed_letter_shifted_small :
  forallb
    (fun key =>
       typed_letter shifted_table key =?
       (if (key =? SDLK_SEMICOLON)%nat then chr ";"
        else typed_reference true key))
    (seq 0 SDLK_LAST) = true.
Proof. vm_compute. reflexivity. Qed.

(** C3. The character computed for a typed event agrees with the mapping
    the spec describes on every key and every state of the shift keys but
    one: with shift held, the semicolon key yields the semicolon itself,
    where its shifted counterpart is the colon. *)
Theorem typed_letter_vs_reference (hk : list bool) (key : SDLKey) :
  typed_letter hk key =
    (if shift_held hk && (key =? SDLK_SEMICOLON)%nat then chr ";"
     else typed_reference (shift_held hk) key) /\
  typed_letter shifted_table SDLK_SEMICOLON = chr ";" /\
  typed_reference true SDLK_SEMICOLON = chr ":" /\
  typed_letter shifted_table 49%nat = chr "!" /\
  typed_letter shifted_table SDLK_a = chr "A" /\
  typed_letter (replicate SDLK_LAST false) SDLK_a = chr "a" /\
  typed_letter shifted_table SDLK_RETURN = 10 /\
  typed_letter (replicate SDLK_LAST false) SDLK_KP_ENTER = 10.
Proof.
  split; [|repeat split; vm_compute; reflexivity].
  destruct (shift_held hk) eqn:Hs; simpl.
  - rewrite (typed_letter_shift hk shifted_table)
      by (rewrite Hs; vm_compute; reflexivity).
    destruct (le_lt_dec SDLK_LAST key) as [Hge|Hlt].
    + rewrite typed_letter_large by exact Hge.
      destruct (Nat.eqb_spec key SDLK_SEMICOLON) as [->|_];
        [unfold SDLK_SEMICOLON, SDLK_LAST in Hge; lia|].
      unfold typed_reference. rewrite shift_pairs_small by exact Hge.
      destruct (Nat.eqb_spec key SDLK_RETURN) as [->|_];
        [unfold SDLK_RETURN, SDLK_LAST in Hge; lia|].
      destruct (Nat.eqb_spec key SDLK_KP_ENTER) as [->|_];
        [unfold SDLK_KP_ENTER, SDLK_LAST in Hge; lia|].
      reflexivity.
    + pose proof typed_letter_shifted_small as Hall.
      rewrite forallb_forall in Hall.
      apply Z.eqb_eq. apply Hall. apply in_seq. lia.
  - now apply typed_letter_no_shift.
Qed.

(** ** Mouse buttons *)

(** C9. A button transition maps to one of the eight button sub-states or
    to [UNHANDLED], never to a motion; the three buttons map to their down
    and up sub-states and the two wheel directions to their sub-state on
    release; a wheel button going down and any unrecognised button are
    [UNHANDLED].  An [UNHANDLED] transition leaves the whole state, trace
    included, as it was; any other appends exactly one mouse event with the
    sub-state and the coordinates of the sample. *)
Theorem mouse_button_translation
  (button : nat) (up : bool) (x y : Z) (w : World) :
  let state := _CheckMouseState button up in
  let handler := if up then _UpdateHandleMouseUp else _UpdateHandleMouseDown in
  In state [UNHANDLED; MOUSELUP; MOUSELDOWN; MOUSEMUP; MOUSEMDOWN;
            MOUSERUP; MOUSERDOWN; MOUSEWUP; MOUSEWDOWN] /\
  (_CheckMouseState SDL_BUTTON_LEFT true = MOUSELUP /\
   _CheckMouseState SDL_BUTTON_LEFT false = MOUSELDOWN /\
   _CheckMouseState SDL_BUTTON_MIDDLE true = MOUSEMUP /\
   _CheckMouseState SDL_BUTTON_MIDDLE false = MOUSEMDOWN /\
   _CheckMouseState SDL_BUTTON_RIGHT true = MOUSERUP /\
   _CheckMouseState SDL_BUTTON_RIGHT false = MOUSERDOWN /\
   _CheckMouseState SDL_BUTTON_WHEELUP true = MOUSEWUP /\
   _CheckMouseState SDL_BUTTON_WHEELDOWN true = MOUSEWDOWN) /\
  (_CheckMouseState SDL_BUTTON_WHEELUP false = UNHANDLED /\
   _CheckMouseState SDL_BUTTON_WHEELDOWN false = UNHANDLED) /\
  (~ In button [SDL_BUTTON_LEFT; SDL_BUTTON_MIDDLE; SDL_BUTTON_RIGHT;
                SDL_BUTTON_WHEELUP; SDL_BUTTON_WHEELDOWN] ->
   state = UNHANDLED) /\
  (state = UNHANDLED -> handler button x y w = (tt, w)) /\
  (state <> UNHANDLED ->
   handler button x y w =
   (tt, with_events (fun l => l ++ [MouseEvent state (Uint16 x) (Uint16 y)]) w)).
Proof.
  intros state handler.
  assert (Hrun : handler button x y w =
                 if mouseState_true state
                 then (tt, with_events
                             (fun l => l ++ [MouseEvent state (Uint16 x)
                                               (Uint16 y)]) w)
                 else (tt, w)).
  { subst handler state. destruct up; run; split_if; reflexivity. }
  split; [|split; [|split; [|split; [|split]]]].
  - subst state. unfold _CheckMouseState.
    repeat match goal with
      | |- context [(?a =? ?b)%nat] => destruct (a =? b)%nat
      end; destruct up; simpl; tauto.
  - repeat split.
  - split; reflexivity.
  - intros Hb. subst state. unfold _CheckMouseState.
    repeat match goal with
      | |- context [(?a =? ?b)%nat] =>
          destruct (Nat.eqb_spec a b);
          [exfalso; apply Hb; subst; simpl; tauto|]
      end.
    reflexivity.
  - intros Hs. rewrite Hrun, Hs. reflexivity.
  - intros Hs. rewrite Hrun. destruct state; try reflexivity. contradiction.
Qed.

Lemma mouse_button_translation_witness :
  _UpdateHandleMouseDown SDL_BUTTON_WHEELUP 10 20 Input_init
  = (tt, Input_init) /\
  _UpdateHandleMouseDown 9%nat 10 20 Input_init = (tt, Input_init) /\
  _UpdateHandleMouseUp SDL_BUTTON_WHEELUP 10 20 Input_init
  = (tt, with_events (fun l => l ++ [MouseEvent MOUSEWUP 10 20]) Input_init).
Proof.
  pose proof (mouse_button_translation SDL_BUTTON_WHEELUP false 10 20
                Input_init) as (_ & _ & _ & _ & Hdrop & _).
  pose proof (mouse_button_translation 9%nat false 10 20 Input_init)
    as (_ & _ & _ & _ & Hdrop' & _).
  pose proof (mouse_button_translation SDL_BUTTON_WHEELUP true 10 20
                Input_init) as (_ & _ & _ & _ & _ & Hpush).
  split; [apply Hdrop; reflexivity|].
  split; [apply Hdrop'; reflexivity|].
  apply Hpush. discriminate.
Defined.

(** ** Mouse motion and the pointer fade *)

(** C10. A mouse motion appends the motion event with the sample's
    coordinates, enables the pointer and stores the tick count read at that
    moment as the time of the last mouse activity.  At the end of [Update],
    after the stages have run, the pointer is disabled exactly when the
    ticks elapsed since that time exceed the configured threshold and the
    interface is not active; nothing else is added to the trace there. *)
Theorem mouse_motion_and_fade
  (env : Env) (x y : Z) (q : list SDL_Event) (w : World) :
  (let w' := snd (_UpdateHandleMouseMotion env x y w) in
   events w' = events w ++ [MouseEvent MOUSEMOTION (Uint16 x) (Uint16 y)] /\
   (0 <= x < 65536 -> 0 <= y < 65536 ->
    events w' = events w ++ [MouseEvent MOUSEMOTION x y]) /\
   added w w' = [Video_EnableMouse] /\
   lastMouseMove w' = Uint32 (clock env (ticks_read w)) /\
   fst (Timer_GetTicks env w) = lastMouseMove w') /\
  (let w2 := snd (Update_dispatch env (snd (Update_translate env q w))) in
   let now := fst (Timer_GetTicks env w2) in
   let elapsed := Uint32_sub now (lastMouseMove w2) in
   added w2 (snd (Update env q w)) =
     (if (elapsed >? Uint32 (mouse_fade env)) && negb (UI_Active env)
      then [Video_DisableMouse] else []) /\
   (0 <= lastMouseMove w2 <= now -> elapsed = now - lastMouseMove w2)).
Proof.
  split.
  - cbv zeta. run. unfold added. simpl. rewrite drop_app_length.
    repeat split; auto.
    intros Hx Hy. unfold Uint16. rewrite !Z.mod_small by lia. reflexivity.
  - intros w2 now elapsed. split.
    + rewrite Update_phases. cbv zeta. fold w2.
      pose proof (Update_mouse_fade_state env w2) as (_&_&_&Ha).
      unfold added. simpl. fold (added w2 (snd (Update_mouse_fade env w2))).
      rewrite (added_appends _ _ _ Ha). reflexivity.
    + intros Hr. subst elapsed. unfold Uint32_sub, Uint32.
      assert (now < 4294967296)
        by (subst now; run; unfold Uint32; apply Z.mod_pos_bound; lia).
      apply Z.mod_small. lia.
Qed.

Lemma mouse_motion_and_fade_witness :
  events (snd (_UpdateHandleMouseMotion idle_env 3 4 Input_init))
  = [MouseEvent MOUSEMOTION 3 4] /\
  added (snd (Update_dispatch idle_env
                (snd (Update_translate idle_env [] Input_init))))
        (snd (Update idle_env [] Input_init)) = [] /\
  added (snd (Update_dispatch idle_env
                (snd (Update_translate idle_env []
                        (with_ticks_read 7 Input_init)))))
        (snd (Update idle_env [] (with_ticks_read 7 Input_init)))
  = [Video_DisableMouse].
Proof.
  pose proof (mouse_motion_and_fade idle_env 3 4 [] Input_init)
    as ((_ & Hev & _) & (Hfade & _)).
  pose proof (mouse_motion_and_fade idle_env 3 4 []
                (with_ticks_read 7 Input_init))
    as (_ & (Hfade' & _)).
  split; [apply Hev; lia|]. split; [exact Hfade | exact Hfade'].
Defined.

(** * Further properties of the pipeline *)

(** ** The registry as a finite map *)

Lemma option_ext {A} (o1 o2 : option A) :
  (forall v, o1 = Some v <-> o2 = Some v) -> o1 = o2.
Proof.
  intros H. destruct o1 as [a|], o2 as [b|]; auto.
  - apply H. reflexivity.
  - symmetry. apply H. reflexivity.
  - apply H. reflexivity.
Qed.

Lemma map_insert_In k v m p :
  map_sorted m = true ->
  (In p (map_insert k v m) <->
   In p m \/ (p = (k, v) /\ map_find k m = None)).
Proof.
  induction m as [|[k1 v1] m IH]; intros Hs; simpl.
  - split; [intros [<-|[]]; auto | intros [[]|[-> _]]; auto].
  - pose proof (map_sorted_tail _ _ _ Hs) as Hs'. specialize (IH Hs').
    destruct (InputEvent_lt k1 k) eqn:H1; simpl.
    + rewrite IH. tauto.
    + destruct (InputEvent_lt k k1) eqn:H2; simpl.
      * split; [intros [<-|H]; auto | intros [H|[-> _]]; auto].
      * split; [auto|]. intros [H|[_ H]]; [exact H | discriminate].
Qed.

Lemma map_erase_In_iff k m k' v' :
  map_sorted m = true ->
  (In (k', v') (map_erase k m) <-> In (k', v') m /\ k' <> k).
Proof.
  intros Hs. split.
  - intros Hin. split; [eapply map_erase_In; eauto|].
    intros ->. eapply map_erase_absent; eauto.
  - intros [Hin Hne]. revert Hs Hin.
    induction m as [|[k1 v1] m IH]; intros Hs Hin; simpl; [destruct Hin|].
    pose proof (map_sorted_tail _ _ _ Hs) as Hs'.
    destruct (InputEvent_lt k1 k) eqn:H1.
    + destruct Hin as [Heq|Hin]; [now left | right; auto].
    + destruct (InputEvent_lt k k1) eqn:H2; [exact Hin|].
      pose proof (InputEvent_lt_total _ _ H1 H2) as ->.
      destruct Hin as [Heq|Hin]; [congruence | exact Hin].
Qed.

Lemma map_find_insert_ne k v m k' :
  map_sorted m = true -> k' <> k ->
  map_find k' (map_insert k v m) = map_find k' m.
Proof.
  intros Hs Hne. apply option_ext. intros v'.
  rewrite !map_find_In by (auto using map_insert_sorted).
  rewrite map_insert_In by exact Hs. split; [|auto].
  intros [H|[H _]]; [exact H | congruence].
Qed.

Lemma map_find_insert_new k v m :
  map_sorted m = true -> map_find k m = None ->
  map_find k (map_insert k v m) = Some v.
Proof.
  intros Hs Hf. apply map_find_In; [now apply map_insert_sorted|].
  apply map_insert_In; auto.
Qed.

Lemma map_find_erase_ne k m k' :
  map_sorted m = true -> k' <> k ->
  map_find k' (map_erase k m) = map_find k' m.
Proof.
  intros Hs Hne. apply option_ext. intros v'.
  rewrite !map_find_In by (auto using map_erase_sorted).
  rewrite map_erase_In_iff by exact Hs. tauto.
Qed.

Lemma map_erase_absent_id k m :
  map_find k m = None -> map_erase k m = m.
Proof.
  induction m as [|[k1 v1] m IH]; simpl; [reflexivity|].
  destruct (InputEvent_lt k1 k); [intros H; now rewrite IH|].
  destruct (InputEvent_lt k k1); [reflexivity | discriminate].
Qed.

Lemma map_erase_insert k v m :
  map_find k m = None -> map_erase k (map_insert k v m) = m.
Proof.
  induction m as [|[k1 v1] m IH]; simpl.
  - intros _. now rewrite InputEvent_lt_irrefl.
  - destruct (InputEvent_lt k1 k) eqn:H1; simpl.
    + intros H. now rewrite H1, IH.
    + destruct (InputEvent_lt k k1) eqn:H2; [|discriminate].
      intros _. simpl. now rewrite InputEvent_lt_irrefl.
Qed.

Lemma map_insert_length k v m :
  map_find k m = None -> length (map_insert k v m) = S (length m).
Proof.
  induction m as [|[k1 v1] m IH]; simpl; [reflexivity|].
  destruct (InputEvent_lt k1 k); simpl; [intros H; now rewrite IH|].
  destruct (InputEvent_lt k k1); [reflexivity | discriminate].
Qed.

Lemma map_erase_length k v m :
  map_find k m = Some v -> S (length (map_erase k m)) = length m.
Proof.
  induction m as [|[k1 v1] m IH]; simpl; [discriminate|].
  destruct (InputEvent_lt k1 k); simpl; [intros H; now rewrite IH|].
  destruct (InputEvent_lt k k1); [discriminate | reflexivity].
Qed.

(** Two maps in key order with the same bindings are the same list. *)
Lemma map_sorted_ext m1 m2 :
  map_sorted m1 = true -> map_sorted m2 = true ->
  (forall p, In p m1 <-> In p m2) -> m1 = m2.
Proof.
  revert m2. induction m1 as [|[k1 v1] m1 IH]; intros m2 Hs1 Hs2 Hin.
  - destruct m2 as [|p m2]; [reflexivity|].
    exfalso. apply (Hin p). now left.
  - destruct m2 as [|[k2 v2] m2].
    { exfalso. apply (Hin (k1, v1)). now left. }
    pose proof (map_sorted_tail _ _ _ Hs1) as Hs1'.
    pose proof (map_sorted_tail _ _ _ Hs2) as Hs2'.
    assert (Hk : k1 = k2).
    { destruct (proj1 (Hin (k1, v1)) (or_introl eq_refl)) as [Heq|H12];
        [congruence|].
      destruct (proj2 (Hin (k2, v2)) (or_introl eq_refl)) as [Heq|H21];
        [congruence|].
      pose proof (map_sorted_head_lt _ _ _ _ _ Hs2 H12) as Ha.
      pose proof (map_sorted_head_lt _ _ _ _ _ Hs1 H21) as Hb.
      apply InputEvent_lt_asym in Ha. congruence. }
    subst k2.
    assert (Hv : v1 = v2).
    { destruct (proj1 (Hin (k1, v1)) (or_introl eq_refl)) as [Heq|H12];
        [congruence|].
      pose proof (map_sorted_head_lt _ _ _ _ _ Hs2 H12) as Ha.
      rewrite InputEvent_lt_irrefl in Ha. discriminate. }
    subst v2. f_equal. apply IH; auto.
    intros [k v]. split; intros H.
    + destruct (proj1 (Hin (k, v)) (or_intror H)) as [Heq|H']; [|exact H'].
      inversion Heq; subst.
      pose proof (map_sorted_head_lt _ _ _ _ _ Hs1 H) as Ha.
      rewrite InputEvent_lt_irrefl in Ha. discriminate.
    + destruct (proj2 (Hin (k, v)) (or_intror H)) as [Heq|H']; [|exact H'].
      inversion Heq; subst.
      pose proof (map_sorted_head_lt _ _ _ _ _ Hs2 H) as Ha.
      rewrite InputEvent_lt_irrefl in Ha. discriminate.
Qed.

Lemma map_insert_comm k1 v1 k2 v2 m :
  map_sorted m = true -> k1 <> k2 ->
  map_insert k1 v1 (map_insert k2 v2 m) = map_insert k2 v2 (map_insert k1 v1 m).
Proof.
  intros Hs Hne.
  apply map_sorted_ext; auto using map_insert_sorted.
  intros p. rewrite !map_insert_In by auto using map_insert_sorted.
  rewrite !map_find_insert_ne by auto. tauto.
Qed.

Lemma map_insert_erase_comm k1 v1 k2 m :
  map_sorted m = true -> k1 <> k2 ->
  map_insert k1 v1 (map_erase k2 m) = map_erase k2 (map_insert k1 v1 m).
Proof.
  intros Hs Hne.
  apply map_sorted_ext; auto using map_insert_sorted, map_erase_sorted.
  intros [k v].
  rewrite map_insert_In by auto using map_erase_sorted.
  rewrite !map_erase_In_iff by auto using map_insert_sorted.
  rewrite map_insert_In by auto.
  rewrite map_find_erase_ne by auto.
  split.
  - intros [[H1 H2]|[H1 H2]]; [tauto|]. inversion H1; subst. tauto.
  - intros [[H1|[H1 H2]] H3]; [tauto|]. right. tauto.
Qed.

Lemma with_eventMappings_id f w :
  f (eventMappings w) = eventMappings w -> with_eventMappings f w = w.
Proof. destruct w. unfold with_eventMappings. simpl. intros ->. reflexivity. Qed.

Lemma RegisterCallBack_fresh (w : World) (e : InputEvent) (c : string) :
  map_sorted (eventMappings w) = true ->
  map_find e (eventMappings w) = None ->
  map_find e (eventMappings (snd (RegisterCallBack e c w))) = Some c /\
  snd (UnRegisterCallBack e (snd (RegisterCallBack e c w))) = w.
Proof.
  intros Hs Hf. run. split; [now apply map_find_insert_new|].
  destruct w. unfold with_eventMappings. simpl in *.
  now rewrite map_erase_insert.
Qed.

(** X1. Registering a command for an event that has no binding makes the
    lookup of that event yield the command, leaves the lookup of every
    other event as it was, adds exactly one entry and keeps the registry in
    key order; unregistering the event again gives back the state from
    before the registration. *)
Theorem RegisterCallBack_then_lookup
  (w : World) (e : InputEvent) (c : string) :
  map_sorted (eventMappings w) = true ->
  map_find e (eventMappings w) = None ->
  let w' := snd (RegisterCallBack e c w) in
  map_find e (eventMappings w') = Some c /\
  (forall e', e' <> e ->
     map_find e' (eventMappings w') = map_find e' (eventMappings w)) /\
  length (eventMappings w') = S (length (eventMappings w)) /\
  map_sorted (eventMappings w') = true /\
  snd (UnRegisterCallBack e w') = w.
Proof.
  intros Hs Hf w'. subst w'. run.
  split; [now apply map_find_insert_new|].
  split; [intros e' He'; now apply map_find_insert_ne|].
  split; [now apply map_insert_length|].
  split; [now apply map_insert_sorted|].
  destruct w. unfold with_eventMappings. simpl in *.
  now rewrite map_erase_insert.
Qed.

Lemma RegisterCallBack_then_lookup_witness :
  map_find (KeyEvent KEYUP 97) (eventMappings bound_world) = None /\
  map_find (KeyEvent KEYUP 97)
    (eventMappings (snd (RegisterCallBack (KeyEvent KEYUP 97) "stop()"
                           bound_world))) = Some "stop()" /\
  map_find (KeyEvent KEYDOWN 97)
    (eventMappings (snd (RegisterCallBack (KeyEvent KEYUP 97) "stop()"
                           bound_world))) = Some "fire()" /\
  snd (UnRegisterCallBack (KeyEvent KEYUP 97)
         (snd (RegisterCallBack (KeyEvent KEYUP 97) "stop()" bound_world)))
  = bound_world.
Proof.
  split; [reflexivity|].
  pose proof (RegisterCallBack_then_lookup bound_world (KeyEvent KEYUP 97)
                "stop()" eq_refl eq_refl) as (Hnew & Hold & _ & _ & Hback).
  split; [exact Hnew|]. split; [|exact Hback].
  rewrite Hold; [reflexivity | discriminate].
Defined.

(** X2. Unregistering an event never disturbs another event's binding and
    keeps the registry in key order.  For an event without a binding it
    leaves the whole state as it was; for a bound event it removes exactly
    one entry. *)
Theorem UnRegisterCallBack_only_that_event (w : World) (e : InputEvent) :
  map_sorted (eventMappings w) = true ->
  let w' := snd (UnRegisterCallBack e w) in
  (forall e', e' <> e ->
     map_find e' (eventMappings w') = map_find e' (eventMappings w)) /\
  map_sorted (eventMappings w') = true /\
  (map_find e (eventMappings w) = None -> w' = w) /\
  (forall c, map_find e (eventMappings w) = Some c ->
     S (length (eventMappings w')) = length (eventMappings w)).
Proof.
  intros Hs w'. subst w'. run.
  split; [intros e' He'; now apply map_find_erase_ne|].
  split; [now apply map_erase_sorted|].
  split.
  - intros Hf. apply with_eventMappings_id. now apply map_erase_absent_id.
  - intros c Hf. eapply map_erase_length; eauto.
Qed.

Lemma UnRegisterCallBack_only_that_event_witness :
  map_sorted (eventMappings bound_world) = true /\
  snd (UnRegisterCallBack (KeyEvent KEYUP 97) bound_world) = bound_world /\
  length (eventMappings
            (snd (UnRegisterCallBack (KeyEvent KEYDOWN 97) bound_world)))
  = 0%nat.
Proof.
  split; [reflexivity|].
  pose proof (UnRegisterCallBack_only_that_event bound_world
                (KeyEvent KEYUP 97) eq_refl) as (_ & _ & Hid & _).
  pose proof (UnRegisterCallBack_only_that_event bound_world
                (KeyEvent KEYDOWN 97) eq_refl) as (_ & _ & _ & Hlen).
  split; [apply Hid; reflexivity|].
  apply eq_add_S. exact (Hlen "fire()" eq_refl).
Defined.

(** X3. The registry does not depend on the order of the calls: two
    registrations of different events commute, and a registration commutes
    with the unregistration of a different event. *)
Theorem registry_calls_commute
  (w : World) (e1 e2 : InputEvent) (c1 c2 : string) :
  map_sorted (eventMappings w) = true -> e1 <> e2 ->
  snd (RegisterCallBack e1 c1 (snd (RegisterCallBack e2 c2 w))) =
  snd (RegisterCallBack e2 c2 (snd (RegisterCallBack e1 c1 w))) /\
  snd (RegisterCallBack e1 c1 (snd (UnRegisterCallBack e2 w))) =
  snd (UnRegisterCallBack e2 (snd (RegisterCallBack e1 c1 w))).
Proof.
  intros Hs Hne. run. destruct w. unfold with_eventMappings. simpl in *.
  split; f_equal.
  - now apply map_insert_comm.
  - now apply map_insert_erase_comm.
Qed.

Lemma registry_calls_commute_witness :
  snd (RegisterCallBack (KeyEvent KEYUP 97) "stop()"
         (snd (RegisterCallBack (MouseEvent MOUSELDOWN 5 5) "click()"
                 bound_world))) =
  snd (RegisterCallBack (MouseEvent MOUSELDOWN 5 5) "click()"
         (snd (RegisterCallBack (KeyEvent KEYUP 97) "stop()" bound_world))).
Proof.
  apply (registry_calls_commute bound_world (KeyEvent KEYUP 97)
           (MouseEvent MOUSELDOWN 5 5) "stop()" "click()" eq_refl).
  discriminate.
Defined.

(** ** The escape key never shows *)

Lemma typed_letter_shifted_not_escape :
  forallb
    (fun key =>
       (key =? SDLK_ESCAPE)%nat
       || negb (typed_letter shifted_table key =? Z.of_nat SDLK_ESCAPE))
    (seq 0 SDLK_LAST) = true.
Proof. vm_compute. reflexivity. Qed.

Lemma typed_letter_not_escape hk key :
  key <> SDLK_ESCAPE -> typed_letter hk key <> Z.of_nat SDLK_ESCAPE.
Proof.
  intros Hne. destruct (shift_held hk) eqn:Hs.
  - rewrite (typed_letter_shift hk shifted_table)
      by (rewrite Hs; vm_compute; reflexivity).
    destruct (le_lt_dec SDLK_LAST key) as [Hge|Hlt].
    + rewrite typed_letter_large by exact Hge. lia.
    + pose proof typed_letter_shifted_not_escape as Hall.
      rewrite forallb_forall in Hall.
      specialize (Hall key (proj2 (in_seq _ _ _) (conj (Nat.le_0_l _) Hlt))).
      apply orb_true_iff in Hall as [Hk|Hk].
      * apply Nat.eqb_eq in Hk. contradiction.
      * apply negb_true_iff, Z.eqb_neq in Hk. exact Hk.
  - rewrite typed_letter_no_shift by exact Hs. unfold typed_reference.
    destruct (_ || _); [discriminate | lia].
Qed.

Lemma sample_events_hide_escape hk e s :
  ~ In (KeyEvent s (Z.of_nat SDLK_ESCAPE)) (sample_events hk e).
Proof.
  destruct e as [|k|k| | | |]; simpl; try tauto.
  - destruct (Nat.eqb_spec k SDLK_ESCAPE) as [->|Hne]; simpl; [tauto|].
    intros [H|[H|[]]]; inversion H as [[Hs Hk]].
    + apply Hne. lia.
    + now apply (typed_letter_not_escape hk k).
  - destruct (Nat.eqb_spec k SDLK_ESCAPE) as [->|Hne]; simpl; [tauto|].
    intros [H|[]]. inversion H as [[Hs Hk]]. apply Hne. lia.
  - intros [H|[]]. discriminate.
  - destruct (mouseState_true _); simpl; [|tauto]. intros [H|[]]. discriminate.
  - destruct (mouseState_true _); simpl; [|tauto]. intros [H|[]]. discriminate.
Qed.

Lemma sample_held_escape hk e :
  held (sample_held hk e) SDLK_ESCAPE = held hk SDLK_ESCAPE.
Proof.
  destruct e as [|k|k| | | |]; simpl; try reflexivity;
    destruct (Nat.eqb_spec k SDLK_ESCAPE); try reflexivity;
    now apply held_insert_ne.
Qed.

Lemma queue_held_escape hk q :
  held (queue_held hk q) SDLK_ESCAPE = held hk SDLK_ESCAPE.
Proof.
  unfold queue_held. revert hk. induction q as [|e q IH]; intros hk; simpl;
    [reflexivity|].
  now rewrite IH, sample_held_escape.
Qed.

Lemma queue_events_hide_escape hk q s :
  ~ In (KeyEvent s (Z.of_nat SDLK_ESCAPE)) (queue_events hk q).
Proof.
  revert hk. induction q as [|e q IH]; intros hk; simpl; [tauto|].
  rewrite in_app_iff. intros [H|H].
  - now apply sample_events_hide_escape in H.
  - now apply IH in H.
Qed.

Lemma held_events_In hk ks s k :
  In (KeyEvent s (Z.of_nat k)) (held_events hk ks) -> held hk k = true.
Proof.
  unfold held_events. rewrite in_map_iff. intros (j & Hj & Hin).
  apply List.filter_In in Hin as [_ Hh]. inversion Hj as [[Hs Hk]].
  apply Nat2Z.inj in Hk. now subst.
Qed.



(** ** What a frame's list is made of *)

Lemma sample_events_states hk e s :
  length (List.filter (has_state s) (sample_events hk e)) =
  match s with
  | KEYDOWN | KEYTYPED => if is_plain_down e then 1%nat else 0%nat
  | KEYUP => if is_plain_up e then 1%nat else 0%nat
  | KEYPRESSED => 0%nat
  end.
Proof.
  destruct e as [|k|k| | | |]; simpl;
    try (destruct s; reflexivity);
    try (destruct (k =? SDLK_ESCAPE)%nat; simpl; destruct s; reflexivity);
    destruct (mouseState_true _); simpl; destruct s; reflexivity.
Qed.

Lemma queue_events_states hk q s :
  length (List.filter (has_state s) (queue_events hk q)) =
  match s with
  | KEYDOWN | KEYTYPED => length (List.filter is_plain_down q)
  | KEYUP => length (List.filter is_plain_up q)
  | KEYPRESSED => 0%nat
  end.
Proof.
  revert hk. induction q as [|e q IH]; intros hk; simpl;
    [destruct s; reflexivity|].
  rewrite List.filter_app, length_app, IH, sample_events_states.
  destruct s; try reflexivity;
    destruct (is_plain_down e), (is_plain_up e); reflexivity.
Qed.

Lemma held_events_states hk ks s :
  List.filter (has_state s) (held_events hk ks) =
  if bool_decide (s = KEYPRESSED) then held_events hk ks else [].
Proof.
  unfold held_events.
  induction (List.filter (held hk) ks) as [|k l IH]; simpl.
  - now destruct (bool_decide _).
  - rewrite IH. destruct s; reflexivity.
Qed.

Lemma held_events_length hk ks : (length (held_events hk ks) <= length ks)%nat.
Proof.
  unfold held_events. rewrite length_map. apply List.filter_length_le.
Qed.

Lemma queue_events_length hk q :
  (length (queue_events hk q) <= 2 * length q)%nat.
Proof.
  revert hk. induction q as [|e q IH]; intros hk; simpl; [lia|].
  rewrite length_app. specialize (IH (sample_held hk e)).
  assert (length (sample_events hk e) <= 2)%nat; [|lia].
  destruct e as [|k|k| | | |]; simpl; try lia;
    try (destruct (k =? SDLK_ESCAPE)%nat; simpl; lia);
    destruct (mouseState_true _); simpl; lia.
Qed.

(** X5. Key repeat.  In the list a frame builds, the Down events and the
    Typed events are each as many as the key-down samples of keys other
    than escape in the queue, and the Up events as many as the key-up
    samples of such keys: a key whose key-down is repeated in the queue is
    reported Down and Typed once per repetition.  It is reported Held at
    most once, however often it went down. *)
Theorem key_repeat_counts (env : Env) (q : list SDL_Event) (w : World) :
  events w = [] ->
  let evs := events (snd (Update_translate env q w)) in
  length (List.filter (has_state KEYDOWN) evs)
    = length (List.filter is_plain_down q) /\
  length (List.filter (has_state KEYTYPED) evs)
    = length (List.filter is_plain_down q) /\
  length (List.filter (has_state KEYUP) evs)
    = length (List.filter is_plain_up q) /\
  (forall k, k <> SDLK_ESCAPE ->
     occurrences (KeyEvent KEYDOWN (Z.of_nat k)) evs
       = length (List.filter (key_down k) q)) /\
  (forall k, (occurrences (KeyEvent KEYPRESSED (Z.of_nat k)) evs <= 1)%nat).
Proof.
  intros He evs. subst evs.
  pose proof (Update_translate_state env q w) as Ht. cbv zeta in Ht.
  destruct Ht as (_ & -> & _). rewrite He, app_nil_l.
  rewrite !List.filter_app, !length_app, !queue_events_states,
    !held_events_states.
  rewrite !bool_decide_eq_false_2 by discriminate. cbn [length].
  repeat split; try lia.
  - intros k Hk. rewrite occurrences_app, queue_events_down by exact Hk.
    rewrite held_events_other; [lia | discriminate].
  - intros k. rewrite occurrences_app, queue_events_no_held.
    rewrite held_events_count by apply NoDup_seq.
    destruct (_ && _); lia.
Qed.

Lemma key_repeat_counts_witness :
  events Input_init = [] /\
  occurrences (KeyEvent KEYDOWN 97)
    (events (snd (Update_translate idle_env
                    [SDL_KEYDOWN key_a; SDL_KEYDOWN key_a; SDL_KEYDOWN key_a]
                    Input_init))) = 3%nat /\
  length (List.filter (has_state KEYTYPED)
            (events (snd (Update_translate idle_env
                            [SDL_KEYDOWN key_a; SDL_KEYDOWN key_a;
                             SDL_KEYDOWN key_a] Input_init)))) = 3%nat.
Proof.
  split; [reflexivity|].
  pose proof (key_repeat_counts idle_env
                [SDL_KEYDOWN key_a; SDL_KEYDOWN key_a; SDL_KEYDOWN key_a]
                Input_init eq_refl) as (_ & Htyped & _ & Hdown & _).
  split; [apply (Hdown key_a); discriminate | exact Htyped].
Defined.

(** X6. Order within a frame.  The list built from an empty list consists
    of the events translated from the queue, none of them a Held event and
    at most two per raw sample, followed by one Held event for each key
    marked in the table the frame leaves, in increasing order of key code. *)
Theorem frame_list_layout (env : Env) (q : list SDL_Event) (w : World) :
  events w = [] ->
  exists translated,
    events (snd (Update_translate env q w)) =
      translated ++
      List.map (fun k => KeyEvent KEYPRESSED (Z.of_nat k))
        (List.filter (held (heldKeys (snd (Update env q w))))
           (seq 0 SDLK_LAST)) /\
    List.filter (has_state KEYPRESSED) translated = [] /\
    (length translated <= 2 * length q)%nat.
Proof.
  intros He. destruct (Update_state env q w) as [-> _].
  pose proof (Update_translate_state env q w) as Ht. cbv zeta in Ht.
  destruct Ht as (_ & -> & _). rewrite He, app_nil_l.
  exists (queue_events (heldKeys w) q). split; [reflexivity|].
  split; [|apply queue_events_length].
  apply length_zero_iff_nil.
  exact (queue_events_states (heldKeys w) q KEYPRESSED).
Qed.

Lemma frame_list_layout_witness :
  events Input_init = [] /\
  exists translated,
    events (snd (Update_translate idle_env
                   [SDL_KEYDOWN 98%nat; SDL_KEYDOWN key_a; SDL_KEYUP 98%nat;
                    SDL_KEYDOWN 99%nat] Input_init)) =
      translated ++
      List.map (fun k => KeyEvent KEYPRESSED (Z.of_nat k))
        (List.filter
           (held (heldKeys
                    (snd (Update idle_env
                            [SDL_KEYDOWN 98%nat; SDL_KEYDOWN key_a;
                             SDL_KEYUP 98%nat; SDL_KEYDOWN 99%nat]
                            Input_init))))
           (seq 0 SDLK_LAST)) /\
    List.filter (has_state KEYPRESSED) translated = [] /\
    (length translated <= 2 * 4)%nat.
Proof.
  split; [reflexivity|].
  exact (frame_list_layout idle_env
           [SDL_KEYDOWN 98%nat; SDL_KEYDOWN key_a; SDL_KEYUP 98%nat;
            SDL_KEYDOWN 99%nat] Input_init eq_refl).
Defined.

(** ** Clock readings, keyboard and mouse *)

Lemma handle_event_clock env e b w :
  let w' := snd (handle_event env e b w) in
  ticks_read w' = (ticks_read w + (if is_motion e then 1 else 0))%nat /\
  lastMouseMove w' =
    (if is_motion e then Uint32 (clock env (ticks_read w))
     else lastMouseMove w) /\
  appends w w' (if is_motion e then [Video_EnableMouse] else []).
Proof.
  unfold appends.
  destruct e; simpl; run; try split_if;
    rewrite ?app_nil_r, ?Nat.add_0_r, ?Nat.add_1_r; auto.
Qed.

Lemma poll_loop_app env q1 q2 b w :
  poll_loop env (q1 ++ q2) b w =
  poll_loop env q2 (fst (poll_loop env q1 b w)) (snd (poll_loop env q1 b w)).
Proof.
  revert b w. induction q1 as [|e q1 IH]; intros b w; simpl; [reflexivity|].
  unfold bind. destruct (handle_event env e b w) as [b1 w1]. apply IH.
Qed.

Lemma poll_loop_cons env e q b w :
  poll_loop env (e :: q) b w =
  poll_loop env q (fst (handle_event env e b w))
    (snd (handle_event env e b w)).
Proof. simpl. unfold bind. now destruct (handle_event env e b w). Qed.

Lemma poll_loop_clock env q b w :
  let w' := snd (poll_loop env q b w) in
  ticks_read w' = (ticks_read w + length (List.filter is_motion q))%nat /\
  appends w w'
    (List.repeat Video_EnableMouse (length (List.filter is_motion q))) /\
  (existsb is_motion q = false -> lastMouseMove w' = lastMouseMove w).
Proof.
  revert b w. induction q as [|e q IH]; intros b w; simpl.
  - split; [lia|]. split; [apply appends_refl | auto].
  - unfold bind. pose proof (handle_event_clock env e b w) as He.
    destruct (handle_event env e b w) as [b1 w1]. simpl in He.
    specialize (IH b1 w1). simpl in IH.
    destruct He as (Ht & Hl & Ha). destruct IH as (It & Ia & Il).
    destruct (is_motion e); simpl.
    + split; [lia|]. split; [|discriminate].
      exact (appends_trans _ _ _ _ _ Ha Ia).
    + split; [lia|]. split; [exact (appends_trans _ _ _ _ _ Ha Ia)|].
      intros Hq. rewrite (Il Hq). exact Hl.
Qed.

Lemma queue_held_no_keys hk q :
  existsb is_key_sample q = false -> queue_held hk q = hk.
Proof.
  unfold queue_held. revert hk. induction q as [|e q IH]; intros hk; simpl;
    [reflexivity|].
  rewrite orb_false_iff. intros [He Hq]. rewrite IH by exact Hq.
  destruct e; simpl in *; try reflexivity; discriminate.
Qed.

Lemma Update_mouse_fade_clock env w :
  let w' := snd (Update_mouse_fade env w) in
  ticks_read w' = S (ticks_read w) /\ lastMouseMove w' = lastMouseMove w.
Proof.
  unfold Update_mouse_fade. run. destruct (_ && _); simpl; auto.
Qed.

Lemma count_enable_lua d :
  forallb is_lua_effect d = true -> count_enable d = 0%nat.
Proof.
  unfold count_enable. induction d as [|e d IH]; [reflexivity|]. simpl.
  rewrite andb_true_iff. intros [He Hd].
  destruct (effect_eq_dec e Video_EnableMouse) as [->|_]; [discriminate|auto].
Qed.

Lemma count_enable_repeat n :
  count_enable (List.repeat Video_EnableMouse n) = n.
Proof.
  unfold count_enable. induction n as [|n IH]; [reflexivity|].
  cbn [List.repeat]. rewrite count_occ_cons_eq by reflexivity. now rewrite IH.
Qed.

(** The state and trace of one call of [Update], phase by phase. *)
Lemma Update_clock env q w :
  let w' := snd (Update env q w) in
  let n := length (List.filter is_motion q) in
  ticks_read w' = (ticks_read w + n + 1)%nat /\
  lastMouseMove w' = lastMouseMove (snd (poll_loop env q false w)) /\
  count_enable (frame_trace env q w) = n.
Proof.
  cbv zeta. rewrite (Update_phases env q w). cbv zeta.
  unfold frame_trace. rewrite (Update_phases env q w). cbv zeta. simpl.
  unfold Update_translate, bind, ret.
  pose proof (poll_loop_clock env q false w) as Hp.
  destruct (poll_loop env q false w) as [b w1]. simpl in Hp.
  pose proof (held_loop_state (seq 0 SDLK_LAST) w1) as Hh.
  destruct (held_loop (seq 0 SDLK_LAST) w1) as [[] w2]. simpl in Hh. simpl.
  pose proof (Update_dispatch_state env w2) as Hd. cbv zeta in Hd.
  pose proof (Update_mouse_fade_clock env (snd (Update_dispatch env w2)))
    as Hf.
  pose proof (Update_mouse_fade_state env (snd (Update_dispatch env w2)))
    as Hf'.
  cbv zeta in Hf, Hf'.
  destruct Hp as (Pt & Pa & _).
  destruct Hh as (_ & _ & Hl & _ & _ & Htk & _ & Htr).
  destruct Hd as (_ & _ & Dl & Dt & (d & Da & Dlua & _) & _).
  destruct Hf as (Ft & Fl). destruct Hf' as (_ & _ & _ & Fa).
  split; [lia|]. split; [congruence|].
  assert (Ha2 : appends w w2
                  (List.repeat Video_EnableMouse
                     (length (List.filter is_motion q))))
    by (unfold appends in *; congruence).
  fold (added w (snd (Update_mouse_fade env (snd (Update_dispatch env w2))))).
  rewrite (added_appends _ _ _
             (appends_trans _ _ _ _ _ (appends_trans _ _ _ _ _ Ha2 Da) Fa)).
  unfold count_enable. rewrite !count_occ_app.
  fold (count_enable (List.repeat Video_EnableMouse
                        (length (List.filter is_motion q)))).
  fold (count_enable d). rewrite count_enable_repeat, (count_enable_lua _ Dlua).
  destruct (fade_test env _); simpl; lia.
Qed.

(** X7. Keyboard, mouse and clock keep apart.  One call of [Update] reads
    the clock once per mouse motion in the queue and once more for the fade
    test, and enables the pointer once per motion.  A queue without key
    samples leaves the held-key table as it was; a queue without a motion
    leaves the time of the last mouse activity as it was; otherwise that
    time is the reading taken at the last motion of the queue. *)
Theorem Update_clock_and_devices (env : Env) (q : list SDL_Event) (w : World) :
  let w' := snd (Update env q w) in
  let n := length (List.filter is_motion q) in
  ticks_read w' = (ticks_read w + n + 1)%nat /\
  count_enable (frame_trace env q w) = n /\
  (existsb is_key_sample q = false -> heldKeys w' = heldKeys w) /\
  (existsb is_motion q = false -> lastMouseMove w' = lastMouseMove w) /\
  (forall q1 x y q2,
      q = q1 ++ SDL_MOUSEMOTION x y :: q2 -> existsb is_motion q2 = false ->
      lastMouseMove w' =
      Uint32 (clock env (ticks_read w + length (List.filter is_motion q1)))).
Proof.
  intros w' n. destruct (Update_clock env q w) as (Ht & Hl & Hc).
  fold w' in Ht, Hl. split; [exact Ht|]. split; [exact Hc|].
  split; [|split].
  - intros Hk. subst w'. destruct (Update_state env q w) as [-> _].
    now apply queue_held_no_keys.
  - intros Hm. rewrite Hl. now apply poll_loop_clock.
  - intros q1 x y q2 -> Hm. rewrite Hl.
    rewrite poll_loop_app, poll_loop_cons.
    pose proof (poll_loop_clock env q1 false w) as (Ht1 & _ & _).
    destruct (poll_loop env q1 false w) as [b1 w1].
    cbn [fst snd] in *.
    pose proof (handle_event_clock env (SDL_MOUSEMOTION x y) b1 w1)
      as (_ & Hl2 & _).
    destruct (handle_event env (SDL_MOUSEMOTION x y) b1 w1) as [b2 w2].
    cbn [fst snd is_motion] in *.
    pose proof (poll_loop_clock env q2 b2 w2) as (_ & _ & Hl3).
    rewrite (Hl3 Hm), Hl2, Ht1. reflexivity.
Qed.

Lemma Update_clock_and_devices_witness :
  heldKeys (snd (Update idle_env [SDL_MOUSEMOTION 1 2; SDL_MOUSEMOTION 3 4]
                   Input_init)) = heldKeys Input_init /\
  lastMouseMove (snd (Update idle_env [SDL_MOUSEMOTION 1 2; SDL_MOUSEMOTION 3 4]
                        Input_init)) = 100 /\
  ticks_read (snd (Update idle_env [SDL_MOUSEMOTION 1 2; SDL_MOUSEMOTION 3 4]
                     Input_init)) = 3%nat.
Proof.
  pose proof (Update_clock_and_devices idle_env
                [SDL_MOUSEMOTION 1 2; SDL_MOUSEMOTION 3 4] Input_init)
    as (Ht & _ & Hk & _ & Hl).
  split; [apply Hk; reflexivity|].
  split; [|exact Ht].
  rewrite (Hl [SDL_MOUSEMOTION 1 2] 3 4 [] eq_refl eq_refl). reflexivity.
Defined.

(** ** The interpreter *)

Lemma Lua_Run_outcome env line w :
  let r := Lua_Run env line w in
  fst r = false /\
  luaInitialized (snd r) = luaInitialized w || lua_open env /\
  scripts_run (snd r) =
    (if luaInitialized w || lua_open env then S (scripts_run w)
     else scripts_run w) /\
  (snd (luaL_dostring env (scripts_run w) line) = [] ->
   eventMappings (snd r) = eventMappings w).
Proof.
  unfold Lua_Run, Lua_Init.
  destruct (luaInitialized w) eqn:Hli; destruct (lua_open env) eqn:Hlo; run;
    repeat (progress (rewrite ?Hli, ?Hlo; simpl)).
  all: try (repeat split; auto; fail).
  all: match goal with
       | |- context [run_script_ops ?ops ?w0] =>
           pose proof (run_script_ops_frame ops w0) as Hf;
           destruct (run_script_ops ops w0) as [[] w1] eqn:Hops
       end; simpl in Hf; destruct Hf as (?&?&?&Hi&?&Hsr&?&?);
    destruct (fst (luaL_dostring env (scripts_run w) line)); simpl;
    repeat split; auto; try congruence;
    intros Hnil; rewrite Hnil in Hops; simpl in Hops; unfold ret in Hops;
    inversion Hops; reflexivity.
Qed.

(** X8. The return value of [Lua::Run] carries no information: it is
    [false] whether the script ran, failed or could not be started.  The
    call starts the interpreter when needed and possible, and only then,
    so once started it is never started again, and it logs a warning only
    when the interpreter cannot be started.  A script that makes no
    registry call leaves the registry as it was. *)
Theorem Lua_Run_returns_false (env : Env) (line : string) (w : World) :
  let r := Lua_Run env line w in
  fst r = false /\
  luaInitialized (snd r) = luaInitialized w || lua_open env /\
  scripts_run (snd r) =
    (if luaInitialized w || lua_open env then S (scripts_run w)
     else scripts_run w) /\
  (luaInitialized w = true \/ lua_open env = true ->
   forall msg, ~ In (Log_Warning msg) (added w (snd r))) /\
  (luaInitialized w = false -> lua_open env = false ->
   added w (snd r) =
   [Call_Lua_Run line; Log_Warning "Could not initialize Lua VM.";
    Log_Warning "Could not load Lua script. Unable to initialize Lua."]) /\
  (snd (luaL_dostring env (scripts_run w) line) = [] ->
   eventMappings (snd r) = eventMappings w).
Proof.
  intros r. subst r.
  destruct (Lua_Run_outcome env line w) as (Hr & Hi & Hs & Hm).
  pose proof (Lua_Run_frame env line w) as (_&_&_&_&Ha&_).
  rewrite (added_appends _ _ _ Ha). unfold Lua_Run_effects.
  repeat split; auto.
  - intros Hav msg.
    assert (negb (luaInitialized w) && negb (lua_open env) = false) as ->
      by (destruct Hav as [-> | ->]; simpl; rewrite ?andb_false_r; reflexivity).
    destruct (fst (luaL_dostring env (scripts_run w) line)); simpl;
      intros [H|H]; try discriminate; destruct H; try discriminate; tauto.
  - intros -> ->. reflexivity.
Qed.

Lemma Lua_Run_returns_false_witness :
  added Input_init (snd (Lua_Run greedy_env "fire()" Input_init))
  = [Call_Lua_Run "fire()"; Log_Error "fire()"] /\
  forall msg,
    ~ In (Log_Warning msg)
         (added Input_init (snd (Lua_Run greedy_env "fire()" Input_init))).
Proof.
  split; [vm_compute; reflexivity|].
  apply (Lua_Run_returns_false greedy_env "fire()" Input_init).
  right. reflexivity.
Defined.

(** ** Invariants of a run *)

Lemma dispatch_event_lua env e w :
  let w' := snd (dispatch_event env e w) in
  (luaInitialized w = true -> luaInitialized w' = true) /\
  ((forall n line, snd (luaL_dostring env n line) = []) ->
   eventMappings w' = eventMappings w).
Proof.
  unfold dispatch_event, bind, gets, ret. simpl.
  destruct (map_find e (eventMappings w)) as [c|]; simpl; [|auto].
  destruct (Lua_Run_outcome env c w) as (_ & Hi & _ & Hm).
  destruct (Lua_Run env c w) as [b w1]. simpl in *. split.
  - intros Hw. rewrite Hi, Hw. reflexivity.
  - intros Hsilent. apply Hm, Hsilent.
Qed.

Lemma dispatch_events_lua env es w :
  let w' := snd (dispatch_events env es w) in
  (luaInitialized w = true -> luaInitialized w' = true) /\
  ((forall n line, snd (luaL_dostring env n line) = []) ->
   eventMappings w' = eventMappings w).
Proof.
  revert w. induction es as [|e es IH]; intros w; simpl; [auto|].
  unfold bind. pose proof (dispatch_event_lua env e w) as He.
  destruct (dispatch_event env e w) as [[] w1]. simpl in He.
  specialize (IH w1). simpl in IH.
  destruct He as [Hi Hm]. destruct IH as [IHi IHm]. split.
  - auto.
  - intros Hsilent. rewrite (IHm Hsilent). auto.
Qed.

Lemma Update_lua env q w :
  let w' := snd (Update env q w) in
  (luaInitialized w = true -> luaInitialized w' = true) /\
  ((forall n line, snd (luaL_dostring env n line) = []) ->
   eventMappings w' = eventMappings w).
Proof.
  cbv zeta. rewrite Update_phases. cbv zeta. simpl.
  pose proof (Update_translate_state env q w) as Ht. cbv zeta in Ht.
  destruct Ht as (_&_&_&Hm&Hi&_).
  set (w1 := snd (Update_translate env q w)) in *.
  assert (Hd : (luaInitialized w1 = true ->
                luaInitialized (snd (Update_dispatch env w1)) = true) /\
               ((forall n line, snd (luaL_dostring env n line) = []) ->
                eventMappings (snd (Update_dispatch env w1))
                = eventMappings w1)).
  { unfold Update_dispatch, HandleLuaCallBacks, bind. run.
    match goal with |- context [dispatch_events env ?es ?w0] =>
      pose proof (dispatch_events_lua env es w0) as Hd;
      destruct (dispatch_events env es w0) as [[] w4] end.
    simpl in *. exact Hd. }
  set (w2 := snd (Update_dispatch env w1)) in *.
  assert (Hf : luaInitialized (snd (Update_mouse_fade env w2))
               = luaInitialized w2 /\
               eventMappings (snd (Update_mouse_fade env w2))
               = eventMappings w2).
  { unfold Update_mouse_fade. run. destruct (_ && _); simpl; auto. }
  destruct Hd as [Hdi Hdm]. destruct Hf as [Hfi Hfm]. split.
  - intros Hw. rewrite Hfi. apply Hdi. congruence.
  - intros Hs. rewrite Hfm, (Hdm Hs). exact Hm.
Qed.

(** X9. Every state a run of frames reaches from a well-formed state (the
    initial state is one) is well formed again: the held-key table keeps
    its declared size, the event list is empty and the registry is in key
    order.  Every frame yields a result.  A started interpreter stays
    started, and when no script of the run calls the registry, the registry
    at the end is the registry at the start. *)
Theorem frames_keep_well_formed (fs : list Frame) (w : World) :
  well_formed w ->
  well_formed (frames_world fs w) /\
  length (run_frames fs w) = length fs /\
  (luaInitialized w = true -> luaInitialized (frames_world fs w) = true) /\
  (Forall (fun f => forall n line, snd (luaL_dostring (fst f) n line) = [])
     fs ->
   eventMappings (frames_world fs w) = eventMappings w).
Proof.
  revert w. induction fs as [|[env q] fs IH]; intros w Hw; simpl.
  - auto.
  - destruct Hw as (Hl & He & Hs).
    destruct (Update_invariant env q w Hl Hs) as (Hl' & He' & Hs').
    destruct (Update_lua env q w) as [Hi Hm].
    destruct (IH (snd (Update env q w))) as (IHw & IHn & IHi & IHm).
    { repeat split; assumption. }
    split; [exact IHw|]. split; [now rewrite IHn|]. split.
    + intros Hli. apply IHi, Hi, Hli.
    + intros Hf. inversion Hf as [|? ? Hf1 Hf2]; subst. simpl in Hf1.
      rewrite (IHm Hf2). apply Hm, Hf1.
Qed.

Lemma frames_keep_well_formed_witness :
  well_formed bound_world /\
  well_formed
    (frames_world [(greedy_env, [SDL_KEYDOWN key_a; SDL_MOUSEMOTION 1 2]);
                   (idle_env, [SDL_KEYUP key_a])] bound_world) /\
  eventMappings
    (frames_world [(greedy_env, [SDL_KEYDOWN key_a; SDL_MOUSEMOTION 1 2]);
                   (idle_env, [SDL_KEYUP key_a])] bound_world)
  = eventMappings bound_world.
Proof.
  assert (Hw : well_formed bound_world) by (repeat split).
  split; [exact Hw|].
  destruct (frames_keep_well_formed
              [(greedy_env, [SDL_KEYDOWN key_a; SDL_MOUSEMOTION 1 2]);
               (idle_env, [SDL_KEYUP key_a])] bound_world Hw)
    as (Hwf & _ & _ & Hreg).
  split; [exact Hwf|]. apply Hreg. repeat constructor.
Defined.

(** X10. [Lua::Init] succeeds only on an interpreter that is not started
    and can be opened, and never twice in a row: a second call is refused
    with a warning.  [Lua::Close] reports whether the interpreter was
    started but leaves the flag set, so after a successful [Init] and a
    [Close] a new [Init] is refused as well, and [Lua::Run] hands the
    script to the interpreter without opening one. *)
Theorem Lua_Init_and_Close (env env' : Env) (w : World) :
  let r := Lua_Init env w in
  (fst r = true <-> luaInitialized w = false /\ lua_open env = true) /\
  luaInitialized (snd r) = luaInitialized w || lua_open env /\
  (fst r = true ->
   Lua_Init env' (snd r) =
   (false,
    with_trace
      (fun t =>
         t ++ [Log_Warning "Cannot initialize Lua. It is already initialized."])
      (snd r))) /\
  fst (Lua_Close w) = luaInitialized w /\
  luaInitialized (snd (Lua_Close w)) = luaInitialized w /\
  (fst r = true ->
   fst (Lua_Init env' (snd (Lua_Close (snd r)))) = false /\
   forall line,
     scripts_run (snd (Lua_Run env' line (snd (Lua_Close (snd r)))))
     = S (scripts_run w)).
Proof.
  cbv zeta. unfold Lua_Init, Lua_Close.
  destruct (luaInitialized w) eqn:Hli; destruct (lua_open env) eqn:Hlo; run;
    repeat (progress (rewrite ?Hli, ?Hlo; simpl)).
  all: repeat split; try discriminate; try tauto; try (intros []; discriminate).
  intros line.
  match goal with |- context [Lua_Run env' line ?w0] =>
    destruct (Lua_Run_outcome env' line w0) as (_ & _ & Hs & _);
    rewrite Hs end.
  reflexivity.
Qed.

Lemma Lua_Init_and_Close_witness :
  fst (Lua_Init idle_env Input_init) = true /\
  fst (Lua_Init idle_env (snd (Lua_Close (snd (Lua_Init idle_env Input_init)))))
  = false.
Proof.
  split; [reflexivity|].
  apply (Lua_Init_and_Close idle_env idle_env Input_init). reflexivity.
Defined.

(** ** The script-facing registry calls *)





(** ** Sprites handed to Lua *)

Lemma draw_order_mask :
  Z.lor (Z.lor DRAW_ORDER_SHIP DRAW_ORDER_PLAYER) DRAW_ORDER_PLANET = 3.
Proof. reflexivity. Qed.

Lemma land_3_mod a : Z.land a 3 = a mod 4.
Proof. change 3 with (Z.ones 2). rewrite Z.land_ones by lia. reflexivity. Qed.

(** X13. The draw orders count from 0 and are no bit flags, but the
    assertion of [pushSprite] masks them: with asserts compiled in, it
    fails exactly for the draw orders that are multiples of four, the
    planets (0) among them, so the branch of the switch that attaches the
    planet metatable is never reached; a weapon (1) passes the assertion
    and ends in the branch that logs an error and attaches no metatable.
    With asserts compiled out a planet gets the planet metatable.  Whenever
    the userdata is pushed it carries the sprite's id, and an error is
    logged exactly when no metatable is attached. *)
Theorem pushSprite_assertion (id drawOrder : Z) :
  (pushSprite false id drawOrder = Push_assertion_failed
   <-> drawOrder mod 4 = 0) /\
  (forall u e, pushSprite false id drawOrder = Pushed u e ->
     ud_metatable u <> Some EPIAR_PLANET) /\
  pushSprite false id DRAW_ORDER_PLANET = Push_assertion_failed /\
  pushSprite true id DRAW_ORDER_PLANET
    = Pushed (mk_userdata id (Some EPIAR_PLANET)) false /\
  pushSprite false id DRAW_ORDER_WEAPON = Pushed (mk_userdata id None) true /\
  (forall ndebug u e, pushSprite ndebug id drawOrder = Pushed u e ->
     ud_id u = id /\ (e = true <-> ud_metatable u = None)).
Proof.
  unfold pushSprite. rewrite draw_order_mask, land_3_mod.
  unfold DRAW_ORDER_SHIP, DRAW_ORDER_PLAYER, DRAW_ORDER_PLANET.
  split; [|split; [|split; [|split; [|split]]]]; try reflexivity.
  - simpl. destruct (Z.eqb_spec (drawOrder mod 4) 0) as [H0|H0].
    + tauto.
    + split; [|contradiction].
      destruct (_ || _); [discriminate|].
      destruct (drawOrder =? 0); discriminate.
  - intros u e. simpl.
    destruct (Z.eqb_spec (drawOrder mod 4) 0) as [H0|H0]; [discriminate|].
    destruct (_ || _); [intros [= <- _]; discriminate|].
    destruct (Z.eqb_spec drawOrder 0) as [->|_];
      [exfalso; apply H0; reflexivity|].
    intros [= <- _]. discriminate.
  - intros ndebug u e.
    destruct (negb ndebug && _); [discriminate|].
    destruct (_ || _); [intros [= <- <-]; simpl; split; [auto|split; discriminate]|].
    destruct (drawOrder =? 0); intros [= <- <-]; simpl;
      split; auto; split; auto; discriminate.
Qed.

(** X14. [getNearestPlanet] passes the planets' draw order, 0, as the mask
    of its assertion, and no draw order has a bit in common with 0: with
    asserts compiled in, the call fails its assertion whenever the sprite
    manager finds a sprite, and never returns one.  With the mask of
    [getNearestShip] a ship or player that is found is returned with the
    ship metatable.  With asserts compiled out [getNearestPlanet] returns
    the planet found. *)
Theorem getNearestPlanet_assertion
  (nargs : nat) (ship range : bool) (closest : option (Z * Z))
  (id drawOrder : Z) :
  (forall pushed,
      getNearestPlanet false nargs ship range closest
      <> (Lua_returned 1, pushed)) /\
  getNearestPlanet false 2 true true (Some (id, drawOrder))
    = (Assertion_failed, None) /\
  getNearestPlanet true 2 true true (Some (id, DRAW_ORDER_PLANET))
    = (Lua_returned 1,
       Some (Pushed (mk_userdata id (Some EPIAR_PLANET)) false)) /\
  (drawOrder = DRAW_ORDER_SHIP \/ drawOrder = DRAW_ORDER_PLAYER ->
   forall ndebug,
     getNearestShip ndebug 2 true true (Some (id, drawOrder))
     = (Lua_returned 1,
        Some (Pushed (mk_userdata id (Some EPIAR_SHIP)) false))) /\
  (forall ndebug type,
      getNearestSprite ndebug type 2 true true None = (Lua_returned 0, None)).
Proof.
  unfold getNearestPlanet, getNearestShip, getNearestSprite,
    DRAW_ORDER_PLANET.
  split; [|split; [|split; [|split]]].
  - intros pushed. destruct (nargs =? 2)%nat; simpl; [|discriminate].
    destruct ship; simpl; [|discriminate].
    destruct range; simpl; [|discriminate].
    destruct closest as [[i o]|]; [|discriminate].
    rewrite Z.land_0_r. discriminate.
  - simpl. now rewrite Z.land_0_r.
  - reflexivity.
  - intros [-> | ->] [|]; reflexivity.
  - intros ndebug type. reflexivity.
Qed.

Lemma getNearestPlanet_assertion_witness :
  getNearestShip false 2 true true (Some (7, DRAW_ORDER_PLAYER))
  = (Lua_returned 1, Some (Pushed (mk_userdata 7 (Some EPIAR_SHIP)) false)) /\
  getNearestPlanet false 2 true true (Some (7, DRAW_ORDER_PLANET))
  = (Assertion_failed, None).
Proof.
  pose proof (getNearestPlanet_assertion 2 true true None 7 DRAW_ORDER_PLAYER)
    as (_ & _ & _ & Hship & _).
  pose proof (getNearestPlanet_assertion 2 true true None 7 DRAW_ORDER_PLANET)
    as (_ & Hplanet & _).
  split; [apply Hship; now right | exact Hplanet].
Defined.

(** ** Tables of names *)

Lemma lua_rawseti_top st t v n :
  lua_rawseti (S (length st)) n (lua_pushstring v (st ++ [LTable t])) =
  Some (st ++ [LTable (<[n := v]> t)]).
Proof.
  unfold lua_rawseti, lua_pushstring.
  rewrite last_snoc, removelast_last. simpl.
  rewrite list_lookup_middle by reflexivity.
  rewrite <- (Nat.add_0_r (length st)) at 1. rewrite insert_app_r. reflexivity.
Qed.

Lemma pushNames_loop_table st names index t :
  pushNames_loop (S (length st)) names index (st ++ [LTable t]) =
  Some (st ++ [LTable (names_table index names t)]).
Proof.
  revert index t. induction names as [|name rest IH]; intros index t; simpl;
    [reflexivity|].
  rewrite lua_rawseti_top. apply IH.
Qed.

Lemma names_table_lookup index names t i :
  names_table index names t !! i =
  if decide (index <= i < index + Z.of_nat (length names))
  then names !! Z.to_nat (i - index)
  else t !! i.
Proof.
  revert index t. induction names as [|name rest IH]; intros index t.
  - simpl. case_decide; [lia | reflexivity].
  - cbn [names_table length]. rewrite IH.
    destruct (decide (i = index)) as [->|Hne].
    + rewrite decide_False by lia. rewrite decide_True by lia.
      rewrite lookup_insert_eq. now rewrite Z.sub_diag.
    + rewrite lookup_insert_ne by congruence.
      repeat case_decide; try lia; try reflexivity.
      replace (Z.to_nat (i - index)) with (S (Z.to_nat (i - (index + 1))))
        by lia.
      reflexivity.
Qed.

(** X15. [pushNames] leaves the stack as it found it with one table on
    top, and the table is the list as a Lua array: index 1 holds the first
    name, the following indices hold the following names in the order of
    the list, and no other index holds anything.  The list is short enough
    for the [int] index of the loop. *)
Theorem pushNames_array (names : list string) (st : lua_stack) :
  Z.of_nat (length names) < 2147483647 ->
  exists t,
    pushNames names st = Some (st ++ [LTable t]) /\
    (forall j, t !! (Z.of_nat j + 1) = names !! j) /\
    (forall i, i < 1 \/ Z.of_nat (length names) < i -> t !! i = None).
Proof.
  intros _. exists (names_table 1 names ∅).
  split; [|split].
  - unfold pushNames, lua_createtable, lua_gettop.
    rewrite length_app. simpl. rewrite Nat.add_1_r.
    apply pushNames_loop_table.
  - intros j. rewrite names_table_lookup.
    destruct (decide (j < length names)%nat) as [Hlt|Hge].
    + rewrite decide_True by lia. f_equal. lia.
    + rewrite decide_False by lia. rewrite lookup_empty.
      symmetry. apply lookup_ge_None. lia.
  - intros i Hi. rewrite names_table_lookup, decide_False by lia.
    apply lookup_empty.
Qed.

Lemma pushNames_array_witness :
  exists t,
    pushNames ["Terran"; "Vulcan"] [LString "below"] =
      Some ([LString "below"] ++ [LTable t]) /\
    (forall j, t !! (Z.of_nat j + 1) = ["Terran"; "Vulcan"] !! j) /\
    (forall i, i < 1 \/ 2 < i -> t !! i = None).
Proof.
  apply (pushNames_array ["Terran"; "Vulcan"] [LString "below"]).
  simpl. lia.
Defined.

(** ** Technologies *)

Lemma parse_children_app {C : Tech.Catalog} sec c1 c2 (t : Tech.Technology C) :
  Tech.parse_children sec (c1 ++ c2) t =
  let '(ok1, t1, log1) := Tech.parse_children sec c1 t in
  let '(ok2, t2, log2) := Tech.parse_children sec c2 t1 in
  (ok1 && ok2, t2, log1 ++ log2).
Proof.
  revert t. induction c1 as [|[sub v] c1 IH]; intros t; simpl.
  - destruct (Tech.parse_children sec c2 t) as [[ok2 t2] log2]. reflexivity.
  - destruct (Tech.parserCB t sec sub v) as [[ok1 t1] log1].
    rewrite IH.
    destruct (Tech.parse_children sec c1 t1) as [[ok2 t2] log2].
    destruct (Tech.parse_children sec c2 t2) as [[ok3 t3] log3].
    now rewrite andb_assoc, app_assoc.
Qed.

Section TechRoundTrip.

Context {C : Tech.Catalog}.
Hypothesis matches :
  forall s lit, Tech.PPA_MATCHES C s lit = true <-> s = lit.

Lemma matches_refl lit : Tech.PPA_MATCHES C lit lit = true.
Proof. now apply matches. Qed.

Lemma matches_diff s lit : s <> lit -> Tech.PPA_MATCHES C s lit = false.
Proof.
  intros Hne. destruct (Tech.PPA_MATCHES C s lit) eqn:H; [|reflexivity].
  apply matches in H. contradiction.
Qed.

Lemma parse_models sec ms (t : Tech.Technology C) :
  (forall m, In m ms ->
     Tech.Models_GetModel C (Tech.Model_GetName C m) = Some m) ->
  Tech.parse_children sec
    (List.map (fun m => ("model", Tech.Model_GetName C m)) ms) t =
  (true,
   Tech.mk_Technology (Tech.name t) (Tech.models t ++ ms) (Tech.engines t)
     (Tech.weapons t), []).
Proof.
  revert t. induction ms as [|m ms IH]; intros t Hres; simpl.
  - rewrite app_nil_r. now destruct t.
  - unfold Tech.parserCB.
    rewrite (matches_diff "model" "name") by discriminate.
    rewrite matches_refl, (Hres m (or_introl eq_refl)).
    rewrite IH by (intros; apply Hres; now right). simpl.
    now rewrite <- app_assoc.
Qed.

Lemma parse_weapons sec ws (t : Tech.Technology C) :
  (forall w, In w ws ->
     Tech.Weapons_GetWeapon C (Tech.Weapon_GetName C w) = Some w) ->
  Tech.parse_children sec
    (List.map (fun w => ("weapon", Tech.Weapon_GetName C w)) ws) t =
  (true,
   Tech.mk_Technology (Tech.name t) (Tech.models t) (Tech.engines t)
     (Tech.weapons t ++ ws), []).
Proof.
  revert t. induction ws as [|w ws IH]; intros t Hres; simpl.
  - rewrite app_nil_r. now destruct t.
  - unfold Tech.parserCB.
    rewrite (matches_diff "weapon" "name"), (matches_diff "weapon" "model"),
      (matches_diff "weapon" "engine") by discriminate.
    rewrite matches_refl, (Hres w (or_introl eq_refl)).
    rewrite IH by (intros; apply Hres; now right). simpl.
    now rewrite <- app_assoc.
Qed.

Lemma parse_engines sec es (t : Tech.Technology C) :
  (forall e, In e es ->
     Tech.Engines_GetEngine C (Tech.Engine_GetName C e) = Some e) ->
  Tech.parse_children sec
    (List.map (fun e => ("engine", Tech.Engine_GetName C e)) es) t =
  (true,
   Tech.mk_Technology (Tech.name t) (Tech.models t) (Tech.engines t ++ es)
     (Tech.weapons t), []).
Proof.
  revert t. induction es as [|e es IH]; intros t Hres; simpl.
  - rewrite app_nil_r. now destruct t.
  - unfold Tech.parserCB.
    rewrite (matches_diff "engine" "name"), (matches_diff "engine" "model")
      by discriminate.
    rewrite matches_refl, (Hres e (or_introl eq_refl)).
    rewrite IH by (intros; apply Hres; now right). simpl.
    now rewrite <- app_assoc.
Qed.

End TechRoundTrip.

(** X16. Writing a technology and reading it back gives the technology.
    When [PPA_MATCHES] compares [subName] with its literal and each
    catalog finds every member of the technology under its name, feeding
    the children of [ToXMLNode]'s element to [parserCB], starting from an
    empty technology, yields the same name and the same models, engines and
    weapons in the same order, every call returns [true] and no error is
    logged, although the element lists weapons before engines. *)
Theorem Technology_round_trip
  (C : Tech.Catalog) (t : Tech.Technology C) (componentName sec : string) :
  (forall s lit, Tech.PPA_MATCHES C s lit = true <-> s = lit) ->
  (forall m, In m (Tech.models t) ->
     Tech.Models_GetModel C (Tech.Model_GetName C m) = Some m) ->
  (forall e, In e (Tech.engines t) ->
     Tech.Engines_GetEngine C (Tech.Engine_GetName C e) = Some e) ->
  (forall w, In w (Tech.weapons t) ->
     Tech.Weapons_GetWeapon C (Tech.Weapon_GetName C w) = Some w) ->
  Tech.xml_name (Tech.ToXMLNode t componentName) = componentName /\
  Tech.parse_children sec
    (Tech.xml_children (Tech.ToXMLNode t componentName)) Tech.empty
  = (true, t, []).
Proof.
  intros Hm Hms Hes Hws. split; [reflexivity|].
  unfold Tech.ToXMLNode. cbn [Tech.xml_children Tech.parse_children].
  unfold Tech.parserCB at 1. rewrite (matches_refl Hm).
  rewrite parse_children_app.
  rewrite (parse_models Hm) by exact Hms.
  cbn [Tech.models Tech.name Tech.engines Tech.weapons Tech.empty].
  rewrite parse_children_app.
  rewrite (parse_weapons Hm) by exact Hws.
  cbn [Tech.models Tech.name Tech.engines Tech.weapons].
  rewrite (parse_engines Hm) by exact Hes.
  cbn [Tech.models Tech.name Tech.engines Tech.weapons app andb].
  now destruct t.
Qed.

Lemma Technology_round_trip_witness :
  Tech.parse_children "technology"
    (Tech.xml_children (Tech.ToXMLNode Tech.sample_technology "technology"))
    Tech.empty
  = (true, Tech.sample_technology, []).
Proof.
  apply (Technology_round_trip Tech.sample_catalog Tech.sample_technology
           "technology" "technology").
  - intros s lit. apply String.eqb_eq.
  - intros m [<-|[<-|[]]]; reflexivity.
  - intros e [<-|[]]. reflexivity.
  - intros w [].
Defined.

(** X17. [parserCB] never fails and never loses anything.  It returns
    [true] on every input; the lists of models, engines and weapons after
    the call start with the lists before it and together are at most one
    element longer; at most one value is logged, and when one is, it is the
    value passed and the technology is exactly as before. *)
Theorem parserCB_never_fails
  (C : Tech.Catalog) (t : Tech.Technology C) (sec sub value : string) :
  let '(ok, t', log) := Tech.parserCB t sec sub value in
  ok = true /\
  Tech.models t `prefix_of` Tech.models t' /\
  Tech.engines t `prefix_of` Tech.engines t' /\
  Tech.weapons t `prefix_of` Tech.weapons t' /\
  (length (Tech.models t') + length (Tech.engines t')
   + length (Tech.weapons t')
   <= S (length (Tech.models t) + length (Tech.engines t)
         + length (Tech.weapons t)))%nat /\
  (length log <= 1)%nat /\
  (log <> [] -> t' = t /\ log = [value]).
Proof.
  unfold Tech.parserCB.
  destruct (Tech.PPA_MATCHES C sub "name").
  { simpl. repeat split; auto; try reflexivity; try lia; contradiction. }
  destruct (Tech.PPA_MATCHES C sub "model").
  { destruct (Tech.Models_GetModel C value); simpl;
      rewrite ?length_app; simpl;
      repeat split; auto; try reflexivity; try lia; try contradiction;
      now apply prefix_app_r. }
  destruct (Tech.PPA_MATCHES C sub "engine").
  { destruct (Tech.Engines_GetEngine C value); simpl;
      rewrite ?length_app; simpl;
      repeat split; auto; try reflexivity; try lia; try contradiction;
      now apply prefix_app_r. }
  destruct (Tech.PPA_MATCHES C sub "weapon").
  { destruct (Tech.Weapons_GetWeapon C value); simpl;
      rewrite ?length_app; simpl;
      repeat split; auto; try reflexivity; try lia; try contradiction;
      now apply prefix_app_r. }
  simpl. repeat split; auto; try reflexivity; try lia; contradiction.
Qed.

(** ** Typed characters, again *)

Lemma typed_letter_plain hk key :
  shift_held hk = false ->
  typed_letter hk key =
  if (key =? SDLK_RETURN)%nat || (key =? SDLK_KP_ENTER)%nat then 10
  else Z.of_nat key.
Proof.
  intros Hs. rewrite typed_letter_no_shift by exact Hs. reflexivity.
Qed.

Lemma typed_letter_shifted_range :
  forallb
    (fun key =>
       let c := typed_letter shifted_table key in
       (0 <=? c) && (c <? Z.of_nat SDLK_LAST)
       && negb (c =? 13) && negb (c =? 271)
       && Bool.eqb (c =? 10)
            ((key =? 10)%nat || (key =? SDLK_RETURN)%nat
             || (key =? SDLK_KP_ENTER)%nat))
    (seq 0 SDLK_LAST) = true.
Proof. vm_compute. reflexivity. Qed.

(** X18. For every key code below [SDLK_LAST] and every state of the
    held-key table, the character of the Typed event is again a code below
    [SDLK_LAST]; it is never the carriage return (13) nor the code of the
    keypad Enter key (271), which both become the newline (10); and it is
    the newline only for those two keys and for the key whose code is 10.
    Without shift every other key is typed as its own code. *)
Theorem typed_letter_range (hk : list bool) (key : SDLKey) :
  (key < SDLK_LAST)%nat ->
  0 <= typed_letter hk key < Z.of_nat SDLK_LAST /\
  typed_letter hk key <> 13 /\
  typed_letter hk key <> 271 /\
  (typed_letter hk key = 10 <->
   key = 10%nat \/ key = SDLK_RETURN \/ key = SDLK_KP_ENTER) /\
  (shift_held hk = false -> key <> SDLK_RETURN -> key <> SDLK_KP_ENTER ->
   typed_letter hk key = Z.of_nat key).
Proof.
  intros Hk. destruct (shift_held hk) eqn:Hs.
  - rewrite (typed_letter_shift hk shifted_table)
      by (rewrite Hs; vm_compute; reflexivity).
    pose proof typed_letter_shifted_range as Hall.
    rewrite forallb_forall in Hall.
    specialize (Hall key (proj2 (in_seq _ _ _) (conj (Nat.le_0_l _) Hk))).
    cbv zeta in Hall.
    repeat (apply andb_true_iff in Hall as [Hall ?]).
    repeat match goal with
      | H : negb _ = true |- _ => apply negb_true_iff, Z.eqb_neq in H
      end.
    apply Z.leb_le in Hall.
    match goal with H : (_ <? _) = true |- _ => apply Z.ltb_lt in H end.
    match goal with H : Bool.eqb _ _ = true |- _ => apply eqb_prop in H;
      rename H into Hnl end.
    repeat split; auto; try discriminate.
    + intros H10. apply Z.eqb_eq in H10. rewrite H10 in Hnl. symmetry in Hnl.
      rewrite !orb_true_iff, !Nat.eqb_eq in Hnl. tauto.
    + intros H10. apply Z.eqb_eq. rewrite Hnl.
      rewrite !orb_true_iff, !Nat.eqb_eq. tauto.
  - rewrite typed_letter_plain by exact Hs.
    unfold SDLK_RETURN, SDLK_KP_ENTER, SDLK_LAST in *.
    destruct (Nat.eqb_spec key 13) as [->|H13]; cbn [orb].
    { repeat split; auto; try lia; try tauto. }
    destruct (Nat.eqb_spec key 271) as [->|H271]; cbn [orb].
    { repeat split; auto; try lia; try tauto. }
    repeat split; auto; try lia.
Qed.

Lemma typed_letter_range_witness :
  (key_a < SDLK_LAST)%nat /\
  0 <= typed_letter shifted_table key_a < Z.of_nat SDLK_LAST /\
  typed_letter (replicate SDLK_LAST false) key_a = 97.
Proof.
  assert (Hk : (key_a < SDLK_LAST)%nat) by (unfold key_a, SDLK_LAST; lia).
  split; [exact Hk|].
  pose proof (typed_letter_range shifted_table key_a Hk) as (Hr & _).
  pose proof (typed_letter_range (replicate SDLK_LAST false) key_a Hk)
    as (_ & _ & _ & _ & Hplain).
  split; [exact Hr|]. apply Hplain; [reflexivity | discriminate | discriminate].
Defined.

(** ** Shift within a frame *)

Lemma poll_loop_snoc env q e b w :
  snd (poll_loop env (q ++ [e]) b w) =
  snd (handle_event env e (fst (poll_loop env q b w))
         (snd (poll_loop env q b w))).
Proof.
  rewrite poll_loop_app, poll_loop_cons. reflexivity.
Qed.

(** X19. The shift keys take effect within the frame, in arrival order.
    A key-down of a key other than escape appends its Down event and then
    its Typed event, and the character of the Typed event is computed from
    the held-key table as the samples before it in the queue left it.  So
    a letter that goes down after a shift key went down in the same queue,
    with no transition of that shift key in between, is typed in upper
    case; and the key-down of a shift key itself is typed as its own
    code. *)
Theorem shift_within_frame
  (env : Env) (q : list SDL_Event) (k : SDLKey) (b : bool) (w : World) :
  k <> SDLK_ESCAPE ->
  let w1 := snd (poll_loop env q b w) in
  events (snd (poll_loop env (q ++ [SDL_KEYDOWN k]) b w)) =
    events w1 ++ [KeyEvent KEYDOWN (Z.of_nat k);
                  KeyEvent KEYTYPED (typed_letter (heldKeys w1) k)] /\
  (forall q1 q2,
      q = q1 ++ SDL_KEYDOWN SDLK_LSHIFT :: q2 ->
      quiet SDLK_LSHIFT q2 = true ->
      length (heldKeys w) = SDLK_LAST ->
      (SDLK_a <= k <= SDLK_z)%nat ->
      typed_letter (heldKeys w1) k = Z.of_nat k - 32) /\
  (shift_held (heldKeys w1) = false ->
   k = SDLK_LSHIFT \/ k = SDLK_RSHIFT ->
   typed_letter (heldKeys w1) k = Z.of_nat k).
Proof.
  intros Hne w1. split; [|split].
  - rewrite poll_loop_snoc. fold w1.
    destruct (handle_event_state env (SDL_KEYDOWN k)
                (fst (poll_loop env q b w)) w1) as (-> & _).
    simpl. destruct (Nat.eqb_spec k SDLK_ESCAPE); [contradiction|].
    reflexivity.
  - intros q1 q2 -> Hq Hlen Hk.
    assert (Hheld : held (heldKeys w1) SDLK_LSHIFT = true).
    { subst w1. destruct (poll_loop_state env
                            (q1 ++ SDL_KEYDOWN SDLK_LSHIFT :: q2) b w)
        as (_ & -> & _).
      apply queue_held_down; [discriminate | | exact Hq].
      rewrite Hlen. unfold SDLK_LSHIFT, SDLK_LAST. lia. }
    unfold typed_letter. rewrite Hheld. cbn [orb].
    unfold SDLK_a, SDLK_z, SDLK_RETURN, SDLK_KP_ENTER in *.
    destruct (Nat.leb_spec 97 k); [|lia].
    destruct (Nat.leb_spec k 122); [|lia]. cbn [andb].
    destruct (Nat.eqb_spec k 13); [lia|].
    destruct (Nat.eqb_spec k 271); [lia|]. reflexivity.
  - intros Hs Hk. rewrite typed_letter_plain by exact Hs.
    destruct Hk as [-> | ->]; reflexivity.
Qed.

Lemma shift_within_frame_witness :
  key_a <> SDLK_ESCAPE /\
  events (snd (poll_loop idle_env
                 ([SDL_KEYDOWN SDLK_LSHIFT] ++ [SDL_KEYDOWN key_a]) false
                 Input_init)) =
  [KeyEvent KEYDOWN 304; KeyEvent KEYTYPED 304;
   KeyEvent KEYDOWN 97; KeyEvent KEYTYPED 65].
Proof.
  assert (Hne : key_a <> SDLK_ESCAPE) by discriminate.
  split; [exact Hne|].
  destruct (shift_within_frame idle_env [SDL_KEYDOWN SDLK_LSHIFT] key_a false
              Input_init Hne) as (Hev & Hup & _).
  rewrite Hev.
  rewrite (Hup [] [] eq_refl eq_refl eq_refl)
    by (unfold SDLK_a, SDLK_z, key_a; lia).
  reflexivity.
Defined.
